(** * gh-issues-scrape: the rate-limit-aware extraction loop of [run.py]

    A shallow embedding of [extract_gh_repo_issues] and of the script's entry
    point, with the external collaborators (PyGithub, the clock, the
    [datasets] snapshot store) as an explicit world, and the properties of
    the specification proved or refuted against it. *)

From Stdlib Require Import Ascii String ZArith QArith Qminmax Lqa.
From stdpp Require Import gmap strings list fin_maps.

Local Open Scope string_scope.
Local Open Scope list_scope.

(** ** Python values used by the script *)

(** The exceptions that can travel through [extract_gh_repo_issues].
    [RateLimitExceededException] is the only one named in an [except]
    clause; [TypeError] is what iterating [None] raises, [ValueError] what
    [time.sleep] raises on a negative length; [OtherException] stands for
    every other error of a collaborator (network failure, bad credentials,
    malformed response, a failed assertion of the client library). *)
Inductive exn : Type :=
| RateLimitExceededException
| TypeError
| ValueError
| OtherException (name : string).

Definition is_rate_limit (e : exn) : bool :=
  match e with RateLimitExceededException => true | _ => false end.

(** The result of running a statement: it completes with a value or an
    exception is in flight. *)
Inductive outcome (A : Type) : Type :=
| Return (a : A)
| Raise (e : exn).
Arguments Return {A} a.
Arguments Raise {A} e.

(** [f"{x}"] for a value that is a [str] or [None]. *)
Definition py_str (x : option string) : string :=
  match x with Some s => s | None => "None" end.

(** [sep.join(l)] *)
Fixpoint join (sep : string) (l : list string) : string :=
  match l with
  | [] => ""
  | x :: rest =>
      match rest with
      | [] => x
      | _ :: _ => x +:+ sep +:+ join sep rest
      end
  end.

(** A [datetime]; [strftime] below is [d.strftime("%m-%d-%Y %H:%M:%S")],
    every field zero-padded to its width as the Python documentation gives
    the directives: two digits, and four for the year. It is the string of
    the code for the years 1000 to 9999, the years of every issue; below
    1000 the C library may write the year with fewer digits. *)
Record datetime : Type := mk_datetime {
  year : nat; month : nat; day : nat;
  hour : nat; minute : nat; second : nat
}.

Definition digit (n : nat) : ascii := ascii_of_nat (48 + n mod 10).

Definition pad2 (n : nat) : string :=
  String (digit (n / 10)) (String (digit n) EmptyString).

Definition pad4 (n : nat) : string :=
  String (digit (n / 1000)) (String (digit (n / 100)) (pad2 n)).

Definition strftime (d : datetime) : string :=
  pad2 (month d) +:+ "-" +:+ pad2 (day d) +:+ "-" +:+ pad4 (year d) +:+ " "
  +:+ pad2 (hour d) +:+ ":" +:+ pad2 (minute d) +:+ ":" +:+ pad2 (second d).

(** ** The remote collaborator's objects *)

Inductive issue_state : Type := open | closed.

(** What iterating [issue.get_comments()] gives: the comment bodies, or the
    exception raised while the pages are fetched. An issue object is asked
    for its comments at most once, so the answer is part of the object. *)
Inductive comments_response : Type :=
| CommentsOk (bodies : list string)
| CommentsRaise (e : exn).

Module Issue.
Record t : Type := mk {
  number : Z;
  state : issue_state;
  title : string;
  body : option string;
  created_at : datetime;
  closed_at : option datetime;
  get_comments : comments_response
}.
End Issue.

(** One [next()] on the paginated issue list: an issue, or the exception
    raised while the next page is fetched. The end of the list is
    [StopIteration]. *)
Inductive iter_item : Type :=
| Yield (issue : Issue.t)
| IterRaise (e : exn).

(** [gh.get_repo(..)], [repo.get_issues(state="all")] and
    [gh_issues.totalCount] together: an exception, or the count and the
    lazily produced issue list. *)
Inductive repo_response : Type :=
| RepoRaise (e : exn)
| RepoIssues (totalCount : nat) (items : list iter_item).

(** ** The record built for each issue (the [issue_data] dict) *)

Module IssueData.
Record t : Type := mk {
  repo : string;
  number : Z;
  state : issue_state;
  title : string;
  body : option string;
  created_at : string;
  closed_at : string;
  comments : string
}.
End IssueData.

(** [Dataset.from_list(all_issues)]: a snapshot of the list. *)
Definition Dataset : Type := list IssueData.t.
Definition Dataset_from_list (l : list IssueData.t) : Dataset := l.

(** ** Wait-time computation (run.py line 101)

    [wait_time = (rate_limit.raw_data["core"]["reset"] - time.time()) + 3].
    The reset epoch is an [int]; [time.time()] is a float, taken here as an
    exact rational. *)
Definition wait_time (reset : Z) (now : Q) : Q :=
  ((inject_Z reset - now) + 3)%Q.

(** ** The world outside the process

    The collaborators answer deterministically within one run. The answer
    of the issue-listing service may depend on how many repositories were
    requested before, and the rate-limit status and the clock on how many
    rate-limit waits came before, so a repository named twice or throttled
    twice may be answered differently each time. *)
Record World : Type := mk_World {
  (** [Auth.Token(gh_token)] and [Github(auth=auth)]: built locally, no
      request is sent; [None] when both succeed. *)
  Auth_Token : option string -> option exn;
  (** the answer to the [k]-th repository request, for [org/name] *)
  get_repo : nat -> string -> repo_response;
  (** [gh.get_rate_limit().raw_data["core"]["reset"]] at the [k]-th wait:
      the reset epoch, or the exception of the request *)
  get_rate_limit : nat -> outcome Z;
  (** [time.time()] at the [k]-th wait *)
  time_time : nat -> Q
}.

(** What the process does that can be observed, in the order it happens. *)
Inductive event : Type :=
| EAuth (token : option string)
| EGetRepo (token : option string) (full_name : string)
| EGetComments (repo_name : string) (number : Z)
| EAppend (issue_data : IssueData.t)
| ELogRateLimit (i : nat) (num_issues : nat)
| ESaveToDisk (dataset : Dataset) (path : string)
| EGetRateLimit
| ESleep (seconds : Q)
| EPushToHub (dataset : Dataset) (repo_id : option string)
    (token : option string).

(** The events that are requests to a remote service. *)
Definition is_network (e : event) : bool :=
  match e with
  | EGetRepo _ _ | EGetComments _ _ | EGetRateLimit | EPushToHub _ _ _ => true
  | _ => false
  end.

Definition is_save (e : event) : bool :=
  match e with ESaveToDisk _ _ => true | _ => false end.

(** The state the script threads through: the [all_issues] list, the local
    disk (path to saved dataset), the events so far and the two counters
    the world is indexed by. *)
Record Store : Type := mk_Store {
  all_issues : list IssueData.t;
  disk : gmap string (list IssueData.t);
  trace : list event;
  repo_calls : nat;
  waits : nat
}.

Definition initial_store : Store :=
  {| all_issues := []; disk := ∅; trace := []; repo_calls := 0; waits := 0 |}.

Definition set_all_issues (l : list IssueData.t) (s : Store) : Store :=
  {| all_issues := l; disk := disk s; trace := trace s;
     repo_calls := repo_calls s; waits := waits s |}.

Definition set_disk (d : gmap string (list IssueData.t)) (s : Store) : Store :=
  {| all_issues := all_issues s; disk := d; trace := trace s;
     repo_calls := repo_calls s; waits := waits s |}.

Definition log (e : event) (s : Store) : Store :=
  {| all_issues := all_issues s; disk := disk s; trace := trace s ++ [e];
     repo_calls := repo_calls s; waits := waits s |}.

Definition next_repo_call (s : Store) : Store :=
  {| all_issues := all_issues s; disk := disk s; trace := trace s;
     repo_calls := S (repo_calls s); waits := waits s |}.

Definition next_wait (s : Store) : Store :=
  {| all_issues := all_issues s; disk := disk s; trace := trace s;
     repo_calls := repo_calls s; waits := S (waits s) |}.

(** ** Statements: state passing with exceptions

    An exception leaves the effects made so far in place. *)
Definition M (A : Type) : Type := Store -> outcome A * Store.

#[global] Instance M_ret : MRet M := λ A a s, (Return a, s).

#[global] Instance M_bind : MBind M := λ A B f m s,
  match m s with
  | (Return a, s') => f a s'
  | (Raise e, s') => (Raise e, s')
  end.

Definition raise {A : Type} (e : exn) : M A := λ s, (Raise e, s).

Definition emit (e : event) : M unit := λ s, (Return tt, log e s).

(** [try: body  except RateLimitExceededException: handler] *)
Definition try_except_RateLimitExceeded {A : Type} (body handler : M A) : M A :=
  λ s,
    match body s with
    | (Raise RateLimitExceededException, s') => handler s'
    | r => r
    end.

(** [for x in l: body(x)] over a list *)
Fixpoint for_each {A : Type} (body : A -> M unit) (l : list A) : M unit :=
  match l with
  | [] => mret tt
  | x :: rest => body x ;; for_each body rest
  end.

(** ** The collaborators as statements *)

Definition new_client (W : World) (gh_token : option string) : M unit :=
  emit (EAuth gh_token) ;;
  match Auth_Token W gh_token with
  | Some e => raise e
  | None => mret tt
  end.

Definition gh_get_issues (W : World) (gh_token : option string)
    (full_name : string) : M (nat * list iter_item) :=
  λ s,
    let s' := next_repo_call (log (EGetRepo gh_token full_name) s) in
    match get_repo W (repo_calls s) full_name with
    | RepoRaise e => (Raise e, s')
    | RepoIssues totalCount items => (Return (totalCount, items), s')
    end.

Definition issue_get_comments (repo_name : string) (issue : Issue.t)
    : M (list string) :=
  emit (EGetComments repo_name (Issue.number issue)) ;;
  match Issue.get_comments issue with
  | CommentsOk bodies => mret bodies
  | CommentsRaise e => raise e
  end.

Definition append (issue_data : IssueData.t) : M unit :=
  λ s, (Return tt,
        log (EAppend issue_data)
          (set_all_issues (all_issues s ++ [issue_data]) s)).

(** [all_issues = []] (line 61) *)
Definition new_all_issues : M unit :=
  λ s, (Return tt, set_all_issues [] s).

Definition read_all_issues : M (list IssueData.t) :=
  λ s, (Return (all_issues s), s).

(** [dataset.save_to_disk(ds_path)]: whatever was at the path is replaced.
    The local snapshot store is taken to accept every dataset. The disk is
    keyed by the path as it is written; two texts may name one directory,
    so nothing is said of the entries under other keys. *)
Definition save_to_disk (dataset : Dataset) (ds_path : string) : M unit :=
  λ s, (Return tt,
        log (ESaveToDisk dataset ds_path)
          (set_disk (<[ds_path := dataset]> (disk s)) s)).

(** [gh.get_rate_limit()] and the reset epoch of its answer *)
Definition gh_get_rate_limit (W : World) : M Z :=
  λ s, (get_rate_limit W (waits s), log EGetRateLimit s).

(** [time.time()], read once per wait, after the reset epoch *)
Definition time_time_now (W : World) : M Q :=
  λ s, (Return (time_time W (waits s)), next_wait s).

(** [time.sleep(seconds)]: a negative length is a [ValueError] *)
Definition time_sleep (seconds : Q) : M unit :=
  if Qle_bool 0 seconds then emit (ESleep seconds) else raise ValueError.

(** ** [extract_gh_repo_issues] (run.py lines 28-110) *)

Definition delimiter : string := "<|||||>".

(** The [issue_data] dict of lines 80-89. Both timestamp strings are
    formatted from [issue.created_at]. *)
Definition make_issue_data (repo_name : string) (issue : Issue.t)
    (comments : string) : IssueData.t :=
  {| IssueData.repo := repo_name;
     IssueData.number := Issue.number issue;
     IssueData.state := Issue.state issue;
     IssueData.title := Issue.title issue;
     IssueData.body := Issue.body issue;
     IssueData.created_at := strftime (Issue.created_at issue);
     IssueData.closed_at := strftime (Issue.created_at issue);
     IssueData.comments := comments |}.

(** Lines 76-91, the body of the [try]. *)
Definition collect_issue (repo_name : string) (issue : Issue.t) : M unit :=
  bodies ← issue_get_comments repo_name issue;
  let comments := join delimiter bodies in
  let issue_data := make_issue_data repo_name issue comments in
  append issue_data.

(** Lines 94-106, the [except RateLimitExceededException] clause. The two
    [logging.info] calls only print. *)
Definition on_rate_limit (W : World) (ds_path : string) (i num_issues : nat)
    : M unit :=
  emit (ELogRateLimit i num_issues) ;;
  all ← read_all_issues;
  let dataset := Dataset_from_list all in
  save_to_disk dataset ds_path ;;
  reset ← gh_get_rate_limit W;
  now ← time_time_now W;
  let wait_time := wait_time reset now in
  time_sleep wait_time.

(** Lines 75-106, one pass through the body of the inner [for]. *)
Definition process_issue (W : World) (repo_name ds_path : string)
    (num_issues i : nat) (issue : Issue.t) : M unit :=
  try_except_RateLimitExceeded
    (collect_issue repo_name issue)
    (on_rate_limit W ds_path i num_issues).

(** Line 74, [for i, issue in enumerate(tqdm(gh_issues, ..))]: each turn
    first takes the next item from the iterator, outside the [try], then
    runs the body; after the body, handler included, the loop goes on to the
    item that follows. *)
Fixpoint for_issues (W : World) (repo_name ds_path : string)
    (num_issues i : nat) (items : list iter_item) : M unit :=
  match items with
  | [] => mret tt
  | IterRaise e :: _ => raise e
  | Yield issue :: rest =>
      process_issue W repo_name ds_path num_issues i issue ;;
      for_issues W repo_name ds_path num_issues (S i) rest
  end.

(** Lines 64-106, the body of the outer [for]. *)
Definition process_repo (W : World) (gh_org gh_token : option string)
    (ds_path : string) (repo_name : string) : M unit :=
  new_client W gh_token ;;
  gh_issues ← gh_get_issues W gh_token (py_str gh_org +:+ "/" +:+ repo_name);
  let num_issues := fst gh_issues in
  for_issues W repo_name ds_path num_issues 0 (snd gh_issues).

(** [for repo_name in gh_repos] when [gh_repos] may be [None] *)
Definition iterate (gh_repos : option (list string)) : M (list string) :=
  match gh_repos with
  | Some l => mret l
  | None => raise TypeError
  end.

Definition extract_gh_repo_issues (W : World) (gh_org : option string)
    (gh_repos : option (list string)) (gh_token : option string)
    (ds_path : string) : M Dataset :=
  new_all_issues ;;
  repos ← iterate gh_repos;
  for_each (process_repo W gh_org gh_token ds_path) repos ;;
  all ← read_all_issues;
  mret (Dataset_from_list all).

(** ** The entry point (run.py lines 17-25 and 113-119) *)

(** What [parse_args()] returns. No argument is declared [required] and
    none has a default, so each attribute is [None] when its flag is
    absent; [--repos] takes one or more names when present. *)
Record Namespace : Type := mk_Namespace {
  org : option string;
  repos : option (list string);
  gh_token : option string;
  hf_token : option string;
  hf_repo : option string;
  ds_path : option string
}.

Definition push_to_hub (dataset : Dataset) (repo_id token : option string)
    : M unit :=
  emit (EPushToHub dataset repo_id token).

Definition main (W : World) (args : Namespace) : M unit :=
  dataset ← extract_gh_repo_issues W (org args) (repos args) (gh_token args)
               "./hf_repo_issues";
  push_to_hub dataset (hf_repo args) (hf_token args).

(** ** Vocabulary of the properties *)

(** The wait as the specification words it:
    [waitSeconds = max(0, resetEpoch - now) + 3]. *)
Definition spec_waitSeconds (resetEpoch : Z) (now : Q) : Q :=
  (Qmax 0 (inject_Z resetEpoch - now) + 3)%Q.

(** The records appended during a stretch of events, in order. *)
Fixpoint appended (tr : list event) : list IssueData.t :=
  match tr with
  | [] => []
  | EAppend d :: rest => d :: appended rest
  | _ :: rest => appended rest
  end.

(** An item that is fetched without any error. *)
Definition clean_item (it : iter_item) : bool :=
  match it with
  | Yield issue =>
      match Issue.get_comments issue with
      | CommentsOk _ => true
      | CommentsRaise _ => false
      end
  | IterRaise _ => false
  end.

(** No rate-limit signal comes from the item, neither from the iterator nor
    from its comment fetch. *)
Definition unthrottled_item (it : iter_item) : bool :=
  match it with
  | Yield issue =>
      match Issue.get_comments issue with
      | CommentsRaise e => negb (is_rate_limit e)
      | CommentsOk _ => true
      end
  | IterRaise e => negb (is_rate_limit e)
  end.

Definition clean_response (r : repo_response) : bool :=
  match r with
  | RepoIssues _ items => forallb clean_item items
  | RepoRaise _ => false
  end.

Definition unthrottled_response (r : repo_response) : bool :=
  match r with
  | RepoIssues _ items => forallb unthrottled_item items
  | RepoRaise e => negb (is_rate_limit e)
  end.

(** The issues a repository yields, and how many. *)
Fixpoint yielded (items : list iter_item) : list Issue.t :=
  match items with
  | [] => []
  | Yield issue :: rest => issue :: yielded rest
  | IterRaise _ :: rest => yielded rest
  end.

Definition issues_of (r : repo_response) : list Issue.t :=
  match r with
  | RepoIssues _ items => yielded items
  | RepoRaise _ => []
  end.

Definition issue_count (r : repo_response) : nat := length (issues_of r).

(** The record of an issue whose comments were fetched. *)
Definition record_of (repo_name : string) (issue : Issue.t) : IssueData.t :=
  make_issue_data repo_name issue
    (match Issue.get_comments issue with
     | CommentsOk bodies => join delimiter bodies
     | CommentsRaise _ => ""
     end).

(** ** Fixtures *)

Definition an_issue (n : Z) (st : issue_state) (closed : option datetime)
    (c : comments_response) : Issue.t :=
  {| Issue.number := n; Issue.state := st;
     Issue.title := "issue"; Issue.body := None;
     Issue.created_at := mk_datetime 2023 7 4 9 5 0;
     Issue.closed_at := closed;
     Issue.get_comments := c |}.

(** A world that answers the [k]-th repository request with the [k]-th
    response of a script, accepts every token, and reads the same reset epoch
    and clock at every wait. *)
Definition scripted (responses : list repo_response) (reset : Z) (now : Q)
    : World :=
  {| Auth_Token := λ _, None;
     get_repo := λ k _, nth k responses (RepoRaise (OtherException "404"));
     get_rate_limit := λ _, Return reset;
     time_time := λ _, now |}.

(** The repository of the end-to-end scenario: issue 1 open with comments,
    issue 2 closed without. *)
Definition two_issues : repo_response :=
  RepoIssues 2
    [Yield (an_issue 1 open None (CommentsOk ["a"; "b"]));
     Yield (an_issue 2 closed (Some (mk_datetime 2024 2 29 23 59 59))
              (CommentsOk []))].

(** Five issues; the comment fetch of the fourth is throttled. *)
Definition throttled_at_fourth : repo_response :=
  RepoIssues 5
    [Yield (an_issue 1 open None (CommentsOk ["a"; "b"]));
     Yield (an_issue 2 closed (Some (mk_datetime 2024 2 29 23 59 59))
              (CommentsOk []));
     Yield (an_issue 3 open None (CommentsOk ["c"]));
     Yield (an_issue 4 open None (CommentsRaise RateLimitExceededException));
     Yield (an_issue 5 open None (CommentsOk []))].

(** One issue, then the fetch of the next page of the issue list is
    throttled. *)
Definition throttled_listing : repo_response :=
  RepoIssues 40
    [Yield (an_issue 1 open None (CommentsOk ["a"]));
     IterRaise RateLimitExceededException;
     Yield (an_issue 2 open None (CommentsOk []))].

(** Two issues, the comment fetch of the second fails on the network. *)
Definition broken_at_second : repo_response :=
  RepoIssues 3
    [Yield (an_issue 1 open None (CommentsOk ["a"]));
     Yield (an_issue 2 open None (CommentsRaise (OtherException "ConnectionError")));
     Yield (an_issue 3 open None (CommentsOk []))].

(** A record is well built when it is the [issue_data] of some issue whose
    comments were fetched. *)
Definition built (d : IssueData.t) : Prop :=
  ∃ repo_name issue bodies,
    Issue.get_comments issue = CommentsOk bodies ∧
    d = make_issue_data repo_name issue (join delimiter bodies).

(** Every snapshot saved during a stretch of events went to [ds_path] and
    held the records collected up to then: [acc] before the stretch, and
    those appended since. *)
Fixpoint saves_ok (ds_path : string) (acc : list IssueData.t)
    (tr : list event) : Prop :=
  match tr with
  | [] => True
  | EAppend d :: rest => saves_ok ds_path (acc ++ [d]) rest
  | ESaveToDisk ds p :: rest =>
      p = ds_path ∧ ds = acc ∧ saves_ok ds_path acc rest
  | _ :: rest => saves_ok ds_path acc rest
  end.

(** The disk after a stretch of events: each save replaces what was at its
    path. *)
Fixpoint replay (tr : list event) (d : gmap string (list IssueData.t))
    : gmap string (list IssueData.t) :=
  match tr with
  | [] => d
  | ESaveToDisk ds p :: rest => replay rest (<[p := ds]> d)
  | _ :: rest => replay rest d
  end.

(** How a store relates to an earlier one of the same run, [tr] being the
    events in between. *)
Definition advances (ds_path : string) (s s' : Store) (tr : list event)
    : Prop :=
  trace s' = trace s ++ tr ∧
  all_issues s' = all_issues s ++ appended tr ∧
  saves_ok ds_path (all_issues s) tr ∧
  Forall built (appended tr) ∧
  disk s' = replay tr (disk s).

Definition full_name (gh_org : option string) (repo_name : string) : string :=
  py_str gh_org +:+ "/" +:+ repo_name.

(** The records of the repositories [repos], requested as the [k]-th and
    following: one group per repository, in the order given, each group in
    the order its issues are yielded. *)
Fixpoint expected_records (W : World) (gh_org : option string) (k : nat)
    (repos : list string) : list IssueData.t :=
  match repos with
  | [] => []
  | name :: rest =>
      map (record_of name) (issues_of (get_repo W k (full_name gh_org name)))
      ++ expected_records W gh_org (S k) rest
  end.

Fixpoint total_issue_count (W : World) (gh_org : option string) (k : nat)
    (repos : list string) : nat :=
  match repos with
  | [] => 0
  | name :: rest =>
      issue_count (get_repo W k (full_name gh_org name))
      + total_issue_count W gh_org (S k) rest
  end.

(** [P] holds of the answer to each of the requests for [repos]. *)
Fixpoint all_responses (P : repo_response -> bool) (W : World)
    (gh_org : option string) (k : nat) (repos : list string) : bool :=
  match repos with
  | [] => true
  | name :: rest =>
      P (get_repo W k (full_name gh_org name))
      && all_responses P W gh_org (S k) rest
  end.

(** The store after the comments of [issue] were fetched and its record
    appended (lines 76-91). *)
Definition collected (repo_name : string) (issue : Issue.t) (s : Store)
    : Store :=
  log (EAppend (record_of repo_name issue))
    (set_all_issues (all_issues s ++ [record_of repo_name issue])
       (log (EGetComments repo_name (Issue.number issue)) s)).

(** The store after the comment fetch of [issue] was throttled, the
    handler saved the collection and asked for the rate-limit status
    (lines 94-100). *)
Definition asked (ds_path : string) (i num_issues : nat)
    (repo_name : string) (issue : Issue.t) (s : Store) : Store :=
  log EGetRateLimit
    (log (ESaveToDisk (all_issues s) ds_path)
       (set_disk (<[ds_path := all_issues s]> (disk s))
          (log (ELogRateLimit i num_issues)
             (log (EGetComments repo_name (Issue.number issue)) s)))).

(** The same, after the wait was computed (line 101). *)
Definition checkpointed (ds_path : string) (i num_issues : nat)
    (repo_name : string) (issue : Issue.t) (s : Store) : Store :=
  next_wait (asked ds_path i num_issues repo_name issue s).

(** What the handler of a throttled comment fetch comes to, from store [s]:
    the exception of the status request, or the sleep for the computed
    wait. *)
Definition handled (W : World) (ds_path : string) (i num_issues : nat)
    (repo_name : string) (issue : Issue.t) (s : Store)
    : outcome unit * Store :=
  match get_rate_limit W (waits s) with
  | Raise e => (Raise e, asked ds_path i num_issues repo_name issue s)
  | Return reset =>
      time_sleep (wait_time reset (time_time W (waits s)))
        (checkpointed ds_path i num_issues repo_name issue s)
  end.

(** The item's fetch ends in the exception [e]: raised by the iterator, or
    by the comment fetch of the issue it yields. *)
Definition fails_with (it : iter_item) (e : exn) : Prop :=
  match it with
  | IterRaise e' => e' = e
  | Yield issue => Issue.get_comments issue = CommentsRaise e
  end.

(** The request sent for an item before its fetch fails inside the loop
    body: the comment request, if the item was yielded at all. *)
Definition attempt (repo_name : string) (it : iter_item) : list event :=
  match it with
  | Yield issue => [EGetComments repo_name (Issue.number issue)]
  | IterRaise _ => []
  end.

(** The store after the client was built and the repository requested
    (lines 64-71). *)
Definition requested (gh_org gh_token : option string) (repo_name : string)
    (s : Store) : Store :=
  next_repo_call
    (log (EGetRepo gh_token (full_name gh_org repo_name))
       (log (EAuth gh_token) s)).

(** A required configuration value is missing. *)
Definition missing_configuration (args : Namespace) : Prop :=
  org args = None ∨ repos args = None ∨ gh_token args = None.

(** The configuration check as the specification words it: with a missing
    value, an error is surfaced and no request has been sent. *)
Definition spec_configuration_error (W : World) (args : Namespace)
    (s : Store) : Prop :=
  missing_configuration args →
  ∃ e s', main W args s = (Raise e, s') ∧
          existsb is_network (trace s') = false.

(** A second repository, with one issue. *)
Definition one_issue : repo_response :=
  RepoIssues 1 [Yield (an_issue 7 open None (CommentsOk ["x"; "y"; "z"]))].

(** ** Vocabulary of the further properties *)

(** The events of the stretch of a run that leads from [s] to [s']. *)
Definition new_events (s s' : Store) : list event :=
  drop (length (trace s)) (trace s').

(** How many events of a kind a stretch holds. *)
Fixpoint count (f : event → bool) (tr : list event) : nat :=
  match tr with
  | [] => 0
  | e :: rest => (if f e then 1 else 0) + count f rest
  end.

Definition is_sleep (e : event) : bool :=
  match e with ESleep _ => true | _ => false end.

Definition is_status_request (e : event) : bool :=
  match e with EGetRateLimit => true | _ => false end.

Definition is_rate_limit_log (e : event) : bool :=
  match e with ELogRateLimit _ _ => true | _ => false end.

Definition is_push (e : event) : bool :=
  match e with EPushToHub _ _ _ => true | _ => false end.

(** The repository requests of a stretch, with the token they carry, and
    the tokens the clients were built with. *)
Fixpoint repo_requests (tr : list event) : list (option string * string) :=
  match tr with
  | [] => []
  | EGetRepo token name :: rest => (token, name) :: repo_requests rest
  | _ :: rest => repo_requests rest
  end.

Fixpoint clients (tr : list event) : list (option string) :=
  match tr with
  | [] => []
  | EAuth token :: rest => token :: clients rest
  | _ :: rest => clients rest
  end.

(** The comment fetch of the issue succeeds, or is throttled. *)
Definition has_comments (issue : Issue.t) : bool :=
  match Issue.get_comments issue with
  | CommentsOk _ => true
  | CommentsRaise _ => false
  end.

Definition is_throttled (issue : Issue.t) : bool :=
  match Issue.get_comments issue with
  | CommentsRaise e => is_rate_limit e
  | CommentsOk _ => false
  end.

(** The records of the issues of the repositories [repos] whose comments can
    be fetched, grouped as in [expected_records], and the number of issues
    whose comment fetch is throttled. *)
Fixpoint kept_records (W : World) (gh_org : option string) (k : nat)
    (repos : list string) : list IssueData.t :=
  match repos with
  | [] => []
  | name :: rest =>
      map (record_of name)
        (List.filter has_comments
           (issues_of (get_repo W k (full_name gh_org name))))
      ++ kept_records W gh_org (S k) rest
  end.

Fixpoint throttled_count (W : World) (gh_org : option string) (k : nat)
    (repos : list string) : nat :=
  match repos with
  | [] => 0
  | name :: rest =>
      length (List.filter is_throttled
                (issues_of (get_repo W k (full_name gh_org name))))
      + throttled_count W gh_org (S k) rest
  end.

(** A store with its disk put aside. *)
Definition without_disk (s : Store) : Store := set_disk ∅ s.

(** The field ranges of a [datetime] object whose year has four digits
    (from the year 1000 on, where [%Y] gives four digits everywhere). *)
Definition valid_datetime (d : datetime) : Prop :=
  (1000 <= year d < 100 * 100)%nat ∧ (1 <= month d <= 12)%nat ∧
  (1 <= day d <= 31)%nat ∧
  (hour d < 24)%nat ∧ (minute d < 60)%nat ∧ (second d < 60)%nat.

(** Five issues; the comment fetches of the second and the fourth are
    throttled. *)
Definition throttled_twice : repo_response :=
  RepoIssues 5
    [Yield (an_issue 1 open None (CommentsOk ["a"]));
     Yield (an_issue 2 open None (CommentsRaise RateLimitExceededException));
     Yield (an_issue 3 open None (CommentsOk []));
     Yield (an_issue 4 open None (CommentsRaise RateLimitExceededException));
     Yield (an_issue 5 open None (CommentsOk ["b"; "c"]))].

(** Every sleep of a stretch is of a length that is not negative and comes
    right after a snapshot saved to [ds_path] and the status request. *)
Definition waits_follow_snapshots (ds_path : string) (tr : list event)
    : Prop :=
  ∀ k w,
    tr !! k = Some (ESleep w) →
    Qle_bool 0 w = true ∧
    ∃ j ds,
      k = S (S j) ∧
      tr !! j = Some (ESaveToDisk ds ds_path) ∧
      tr !! S j = Some EGetRateLimit.

(** The namespace with another value for [--ds_path]. *)
Definition with_ds_path (q : option string) (args : Namespace) : Namespace :=
  {| org := org args; repos := repos args; gh_token := gh_token args;
     hf_token := hf_token args; hf_repo := hf_repo args; ds_path := q |}.

(** No comment fetch of the world is throttled. *)
Definition comments_never_throttled (W : World) : Prop :=
  ∀ k name issue,
    issue ∈ issues_of (get_repo W k name) → is_throttled issue = false.

(** * Properties *)

(** ** One step at a time *)

Ltac run := unfold mbind, M_bind, mret, M_ret, raise, emit in *; simpl in *.

Lemma appended_app (tr1 tr2 : list event) :
  appended (tr1 ++ tr2) = appended tr1 ++ appended tr2.
Proof.
  induction tr1 as [|e tr1 IH]; simpl; [reflexivity|].
  destruct e; simpl; rewrite ?IH; reflexivity.
Qed.

Lemma replay_app (tr1 tr2 : list event) (d : gmap string (list IssueData.t)) :
  replay (tr1 ++ tr2) d = replay tr2 (replay tr1 d).
Proof.
  revert d; induction tr1 as [|e tr1 IH]; intros d; simpl; [reflexivity|].
  destruct e; simpl; apply IH.
Qed.

Lemma saves_ok_app (ds_path : string) (tr1 tr2 : list event) :
  ∀ acc, saves_ok ds_path acc (tr1 ++ tr2) ↔
         saves_ok ds_path acc tr1 ∧ saves_ok ds_path (acc ++ appended tr1) tr2.
Proof.
  induction tr1 as [|e tr1 IH]; intros acc; simpl.
  - rewrite app_nil_r. tauto.
  - destruct e; simpl; rewrite ?IH, <- ?app_assoc; simpl; tauto.
Qed.

Lemma advances_refl (ds_path : string) (s : Store) : advances ds_path s s [].
Proof.
  unfold advances; simpl. rewrite !app_nil_r. repeat split; auto.
Qed.

Lemma advances_trans (ds_path : string) (s1 s2 s3 : Store) (tr1 tr2 : list event) :
  advances ds_path s1 s2 tr1 → advances ds_path s2 s3 tr2 →
  advances ds_path s1 s3 (tr1 ++ tr2).
Proof.
  intros (T1 & A1 & S1 & B1 & D1) (T2 & A2 & S2 & B2 & D2).
  unfold advances.
  rewrite T2, T1, A2, A1, D2, D1, appended_app, replay_app, !app_assoc.
  repeat split; auto.
  - apply saves_ok_app. split; [assumption|]. rewrite <- A1. assumption.
  - apply Forall_app. split; assumption.
Qed.

Lemma process_issue_ok W repo_name ds_path n i issue bodies s :
  Issue.get_comments issue = CommentsOk bodies →
  process_issue W repo_name ds_path n i issue s
  = (Return tt, collected repo_name issue s).
Proof.
  intros H.
  unfold process_issue, try_except_RateLimitExceeded, collect_issue,
    issue_get_comments, collected, record_of, append.
  run. rewrite H. reflexivity.
Qed.

Lemma process_issue_error W repo_name ds_path n i issue e s :
  Issue.get_comments issue = CommentsRaise e →
  is_rate_limit e = false →
  process_issue W repo_name ds_path n i issue s
  = (Raise e, log (EGetComments repo_name (Issue.number issue)) s).
Proof.
  intros H He.
  unfold process_issue, try_except_RateLimitExceeded, collect_issue,
    issue_get_comments.
  run. rewrite H. destruct e; try discriminate He; reflexivity.
Qed.

Lemma process_issue_throttled W repo_name ds_path n i issue s :
  Issue.get_comments issue = CommentsRaise RateLimitExceededException →
  process_issue W repo_name ds_path n i issue s
  = handled W ds_path i n repo_name issue s.
Proof.
  intros H.
  unfold process_issue, try_except_RateLimitExceeded, collect_issue,
    issue_get_comments, on_rate_limit, read_all_issues, save_to_disk,
    gh_get_rate_limit, time_time_now, handled, checkpointed, asked,
    Dataset_from_list.
  run. rewrite H. simpl.
  destruct (get_rate_limit W (waits s)) as [reset | e]; reflexivity.
Qed.

(** The three ways the handler can end: the status request fails, the wait
    is negative, or the process sleeps. *)
Lemma handled_cases W ds_path i n repo_name issue s :
  (∃ e, handled W ds_path i n repo_name issue s
        = (Raise e, asked ds_path i n repo_name issue s)) ∨
  handled W ds_path i n repo_name issue s
  = (Raise ValueError, checkpointed ds_path i n repo_name issue s) ∨
  (∃ w, handled W ds_path i n repo_name issue s
        = (Return tt, log (ESleep w)
                        (checkpointed ds_path i n repo_name issue s))).
Proof.
  unfold handled.
  destruct (get_rate_limit W (waits s)) as [reset | e].
  - right. unfold time_sleep, emit.
    destruct (Qle_bool 0 _); [right; eexists; reflexivity | left; reflexivity].
  - left. exists e. reflexivity.
Qed.

Lemma built_record_of repo_name issue bodies :
  Issue.get_comments issue = CommentsOk bodies →
  built (record_of repo_name issue).
Proof.
  intros H. exists repo_name, issue, bodies. split; [assumption|].
  unfold record_of. rewrite H. reflexivity.
Qed.

(** ** What every run preserves *)

Lemma process_issue_advances W repo_name ds_path n i issue s :
  ∃ tr, advances ds_path s
          (snd (process_issue W repo_name ds_path n i issue s)) tr.
Proof.
  destruct (Issue.get_comments issue) as [bodies | e] eqn:H.
  - rewrite (process_issue_ok _ _ _ _ _ _ _ _ H).
    eexists [_; _]. unfold advances, collected; simpl.
    rewrite <- app_assoc. repeat split; eauto.
    repeat constructor. eapply built_record_of; eassumption.
  - destruct (is_rate_limit e) eqn:He.
    + destruct e; try discriminate He.
      rewrite (process_issue_throttled _ _ _ _ _ _ _ H).
      destruct (handled_cases W ds_path i n repo_name issue s)
        as [[e E] | [E | [w E]]]; rewrite E.
      * eexists [_; _; _; _]. unfold advances; simpl.
        rewrite <- !app_assoc. repeat split; auto using app_nil_r.
      * eexists [_; _; _; _]. unfold advances; simpl.
        rewrite <- !app_assoc. repeat split; auto using app_nil_r.
      * eexists [_; _; _; _; _]. unfold advances; simpl.
        rewrite <- !app_assoc. repeat split; auto using app_nil_r.
    + rewrite (process_issue_error _ _ _ _ _ _ _ _ H He).
      eexists [_]. unfold advances; simpl.
      repeat split; auto using app_nil_r.
Qed.

Lemma for_issues_yield W repo_name ds_path n i issue rest s :
  for_issues W repo_name ds_path n i (Yield issue :: rest) s
  = match process_issue W repo_name ds_path n i issue s with
    | (Return _, s') => for_issues W repo_name ds_path n (S i) rest s'
    | (Raise e, s') => (Raise e, s')
    end.
Proof. reflexivity. Qed.

Lemma for_issues_advances W repo_name ds_path n items :
  ∀ i s, ∃ tr, advances ds_path s
                 (snd (for_issues W repo_name ds_path n i items s)) tr.
Proof.
  induction items as [|[issue | e] rest IH]; intros i s.
  - exists []. apply advances_refl.
  - rewrite for_issues_yield.
    destruct (process_issue_advances W repo_name ds_path n i issue s)
      as [tr1 A1].
    destruct (process_issue W repo_name ds_path n i issue s) as [[[]|e] s1];
      simpl in A1.
    + destruct (IH (S i) s1) as [tr2 A2].
      exists (tr1 ++ tr2). eapply advances_trans; eassumption.
    + exists tr1. exact A1.
  - exists []. apply advances_refl.
Qed.

Lemma process_repo_advances W gh_org gh_token ds_path repo_name s :
  ∃ tr, advances ds_path s
          (snd (process_repo W gh_org gh_token ds_path repo_name s))
          (EAuth gh_token :: tr).
Proof.
  unfold process_repo, new_client, gh_get_issues. run.
  destruct (Auth_Token W gh_token) as [e|]; simpl.
  - exists []. unfold advances; simpl. repeat split; auto using app_nil_r.
  - match goal with
    | |- context [get_repo W ?k ?f] => destruct (get_repo W k f) as [e | n items]
    end; simpl.
    + exists [EGetRepo gh_token (py_str gh_org +:+ "/" +:+ repo_name)].
      unfold advances; simpl. rewrite <- !app_assoc.
      repeat split; auto using app_nil_r.
    + match goal with
      | |- context [for_issues W repo_name ds_path n 0 items ?s0] =>
          destruct (for_issues_advances W repo_name ds_path n items 0 s0)
            as [tr A]
      end.
      exists (EGetRepo gh_token (py_str gh_org +:+ "/" +:+ repo_name) :: tr).
      change (EAuth gh_token
              :: EGetRepo gh_token (py_str gh_org +:+ "/" +:+ repo_name) :: tr)
        with ([EAuth gh_token;
               EGetRepo gh_token (py_str gh_org +:+ "/" +:+ repo_name)] ++ tr).
      eapply advances_trans; [|exact A].
      unfold advances; simpl. rewrite <- !app_assoc.
      repeat split; auto using app_nil_r.
Qed.

Lemma for_each_repo_advances W gh_org gh_token ds_path repos :
  ∀ s, ∃ tr, advances ds_path s
               (snd (for_each (process_repo W gh_org gh_token ds_path) repos s))
               tr.
Proof.
  induction repos as [|name rest IH]; intros s; simpl.
  - exists []. apply advances_refl.
  - run.
    destruct (process_repo_advances W gh_org gh_token ds_path name s)
      as [tr1 A1].
    destruct (process_repo W gh_org gh_token ds_path name s) as [[[]|e] s1];
      simpl in A1.
    + destruct (IH s1) as [tr2 A2].
      eexists. eapply advances_trans; eassumption.
    + eexists. exact A1.
Qed.

(** The run of [extract_gh_repo_issues] as a whole: whatever the outcome,
    the collection is what was appended, every record is well built, every
    snapshot went to [ds_path] with the collection of its moment, and the
    disk holds what the snapshots wrote. *)
Lemma extract_invariant W gh_org gh_repos gh_token ds_path s :
  ∃ tr,
    let r := extract_gh_repo_issues W gh_org gh_repos gh_token ds_path s in
    trace (snd r) = trace s ++ tr ∧
    all_issues (snd r) = appended tr ∧
    saves_ok ds_path [] tr ∧
    Forall built (appended tr) ∧
    disk (snd r) = replay tr (disk s) ∧
    (∀ ds, fst r = Return ds → ds = appended tr).
Proof.
  unfold extract_gh_repo_issues, new_all_issues, iterate, read_all_issues,
    Dataset_from_list.
  run.
  destruct gh_repos as [repos|]; simpl.
  - destruct (for_each_repo_advances W gh_org gh_token ds_path repos
                (set_all_issues [] s)) as [tr (T & A & S & B & D)].
    exists tr.
    destruct (for_each _ repos _) as [[[]|e] s1]; simpl in *;
      repeat split; auto; try discriminate.
    intros ds [= <-]. assumption.
  - exists []. simpl. repeat split; auto using app_nil_r. discriminate.
Qed.

(** ** The wait (C1) *)

Lemma Qmax_0_nonneg (x : Q) : (0 <= x)%Q → (Qmax 0 x == x)%Q.
Proof. intros H. apply Q.max_r. exact H. Qed.

(** Where the reset is not in the past, the wait of line 101 is the one of
    the specification, [max(0, resetEpoch - now) + 3], at least the 3-second
    margin, and 123 seconds for [resetEpoch = now + 120]; the handler of a
    throttled comment fetch then sleeps for it and returns. *)
Lemma wait_time_when_reset_is_ahead (reset : Z) (now : Q) :
  (now <= inject_Z reset)%Q →
  (wait_time reset now == spec_waitSeconds reset now)%Q ∧
  (3 <= wait_time reset now)%Q ∧
  ((inject_Z reset == now + 120)%Q → (wait_time reset now == 123)%Q) ∧
  (∀ W repo_name path n i issue s,
     Issue.get_comments issue = CommentsRaise RateLimitExceededException →
     get_rate_limit W (waits s) = Return reset →
     time_time W (waits s) = now →
     process_issue W repo_name path n i issue s
     = (Return tt, log (ESleep (wait_time reset now))
                     (checkpointed path i n repo_name issue s))).
Proof.
  intros Hahead.
  assert (0 <= inject_Z reset - now)%Q as H0 by lra.
  assert (3 <= wait_time reset now)%Q as H3 by (unfold wait_time; lra).
  split.
  { unfold wait_time, spec_waitSeconds. rewrite (Qmax_0_nonneg _ H0).
    reflexivity. }
  split; [exact H3|].
  split; [unfold wait_time; intros H; lra|].
  intros W repo_name path n i issue s Hc Hr Hn.
  rewrite (process_issue_throttled _ _ _ _ _ _ _ Hc).
  unfold handled. rewrite Hr, Hn. unfold time_sleep, emit.
  assert (Qle_bool 0 (wait_time reset now) = true) as ->
    by (apply Qle_bool_iff; lra).
  reflexivity.
Qed.

(** C1 fails on the code: line 101 has no clamp. With the reset epoch 1000
    seconds behind the clock the computed wait is negative, where
    [max(0, resetEpoch - now) + 3] is the 3-second margin, and the handler
    does not wait and go on: [time.sleep] rejects the length, and the run of
    [extract_gh_repo_issues] in which the fourth comment fetch is throttled
    ends there in [ValueError], the snapshot of the first three records
    written and the fifth issue never reached. *)
Theorem wait_time_not_clamped :
  ¬ (wait_time 1000 2000 == spec_waitSeconds 1000 2000)%Q ∧
  (spec_waitSeconds 1000 2000 == 3)%Q ∧
  (wait_time 1000 2000 < 0)%Q ∧
  fst (process_issue (scripted [] 1000 2000) "widgets" "ckpt" 1 0
         (an_issue 1 open None (CommentsRaise RateLimitExceededException))
         initial_store)
  = Raise ValueError ∧
  (let r := extract_gh_repo_issues (scripted [throttled_at_fourth] 1000 2000)
              (Some "acme") (Some ["widgets"]) (Some "token") "ckpt"
              initial_store in
   fst r = Raise ValueError ∧
   (length <$> disk (snd r) !! "ckpt") = Some 3%nat ∧
   count is_sleep (trace (snd r)) = 0%nat ∧
   last (trace (snd r)) = Some EGetRateLimit).
Proof.
  split; [|split; [|split; [|split]]].
  - intros H. vm_compute in H. discriminate H.
  - reflexivity.
  - reflexivity.
  - reflexivity.
  - repeat split; vm_compute; reflexivity.
Qed.

(** ** The empty repository list (C10) *)

(** C10: with an empty repository list the function returns the empty
    collection; the store is left as it was (no client is built, no request
    is sent, nothing is saved), only the local list is reset. *)
Theorem empty_repository_list W gh_org gh_token ds_path s :
  extract_gh_repo_issues W gh_org (Some []) gh_token ds_path s
  = (Return [], set_all_issues [] s) ∧
  trace (set_all_issues [] s) = trace s ∧
  disk (set_all_issues [] s) = disk s ∧
  repo_calls (set_all_issues [] s) = repo_calls s ∧
  waits (set_all_issues [] s) = waits s.
Proof. repeat split. Qed.

(** ** The shape of the records (C4) *)

Lemma strftime_length (d : datetime) : String.length (strftime d) = 19.
Proof. reflexivity. Qed.




(** ** Checkpoints (C7) *)

Lemma saves_ok_split ds_path acc tr pre ds p post :
  saves_ok ds_path acc tr →
  tr = pre ++ ESaveToDisk ds p :: post →
  p = ds_path ∧ ds = acc ++ appended pre.
Proof.
  intros H ->. apply saves_ok_app in H as [_ H]. simpl in H. tauto.
Qed.

Lemma process_issue_throttled_store W repo_name ds_path n i issue s :
  Issue.get_comments issue = CommentsRaise RateLimitExceededException →
  ∃ tail,
    let s' := snd (process_issue W repo_name ds_path n i issue s) in
    trace s' = trace s
               ++ [EGetComments repo_name (Issue.number issue);
                   ELogRateLimit i n;
                   ESaveToDisk (all_issues s) ds_path;
                   EGetRateLimit] ++ tail ∧
    appended tail = [] ∧
    all_issues s' = all_issues s ∧
    disk s' = <[ds_path := all_issues s]> (disk s).
Proof.
  intros H. rewrite (process_issue_throttled _ _ _ _ _ _ _ H).
  destruct (handled_cases W ds_path i n repo_name issue s)
    as [[e E] | [E | [w E]]]; rewrite E.
  - exists []. simpl. rewrite <- !app_assoc. repeat split.
  - exists []. simpl. rewrite <- !app_assoc. repeat split.
  - exists [ESleep w]. simpl. rewrite <- !app_assoc. repeat split.
Qed.

(** C7: every snapshot written during a run goes to the checkpoint path and
    holds exactly the records appended to the collection before it; the
    handler of a throttled comment fetch leaves at the checkpoint path the
    collection of that moment; and when the first three issues of a
    repository are fetched and the fourth is throttled, with nothing
    collected before, the snapshot written then is the first of the
    repository and holds exactly the three records of the first three
    issues. *)
Theorem checkpoint_is_collection_so_far W gh_org gh_repos gh_token ds_path s :
  (∃ tr,
     trace (snd (extract_gh_repo_issues W gh_org gh_repos gh_token ds_path s))
     = trace s ++ tr ∧
     ∀ pre ds p post,
       tr = pre ++ ESaveToDisk ds p :: post →
       p = ds_path ∧ ds = appended pre) ∧
  (∀ repo_name n i issue s0,
     Issue.get_comments issue = CommentsRaise RateLimitExceededException →
     let s1 := snd (process_issue W repo_name ds_path n i issue s0) in
     disk s1 !! ds_path = Some (all_issues s0) ∧
     all_issues s1 = all_issues s0) ∧
  (∀ repo_name n i1 i2 i3 i4 rest s0 b1 b2 b3,
     Issue.get_comments i1 = CommentsOk b1 →
     Issue.get_comments i2 = CommentsOk b2 →
     Issue.get_comments i3 = CommentsOk b3 →
     Issue.get_comments i4 = CommentsRaise RateLimitExceededException →
     all_issues s0 = [] →
     ∃ pre post,
       trace (snd (for_issues W repo_name ds_path n 0
                     (Yield i1 :: Yield i2 :: Yield i3 :: Yield i4 :: rest)
                     s0))
       = trace s0 ++ pre
         ++ ESaveToDisk [record_of repo_name i1; record_of repo_name i2;
                         record_of repo_name i3] ds_path :: post ∧
       forallb (λ e, negb (is_save e)) pre = true ∧
       length [record_of repo_name i1; record_of repo_name i2;
               record_of repo_name i3] = 3).
Proof.
  split; [|split].
  - destruct (extract_invariant W gh_org gh_repos gh_token ds_path s)
      as (tr & T & _ & S & _).
    exists tr. split; [exact T|].
    intros pre ds p post E.
    apply (saves_ok_split ds_path [] tr pre ds p post S E).
  - intros repo_name n i issue s0 H.
    destruct (process_issue_throttled_store W repo_name ds_path n i issue s0 H)
      as (tail & _ & _ & A & D).
    simpl in *. rewrite D, A. split; [apply lookup_insert_eq | reflexivity].
  - intros repo_name n i1 i2 i3 i4 rest s0 b1 b2 b3 H1 H2 H3 H4 Hacc.
    rewrite for_issues_yield, (process_issue_ok _ _ _ _ _ _ _ _ H1).
    rewrite for_issues_yield, (process_issue_ok _ _ _ _ _ _ _ _ H2).
    rewrite for_issues_yield, (process_issue_ok _ _ _ _ _ _ _ _ H3).
    rewrite for_issues_yield.
    set (s3 := collected repo_name i3
                 (collected repo_name i2 (collected repo_name i1 s0))).
    assert (all_issues s3 = [record_of repo_name i1; record_of repo_name i2;
                             record_of repo_name i3]) as A3.
    { subst s3. simpl. rewrite Hacc. reflexivity. }
    assert (trace s3 = trace s0
                       ++ [EGetComments repo_name (Issue.number i1);
                           EAppend (record_of repo_name i1);
                           EGetComments repo_name (Issue.number i2);
                           EAppend (record_of repo_name i2);
                           EGetComments repo_name (Issue.number i3);
                           EAppend (record_of repo_name i3)]) as T3.
    { subst s3. simpl. rewrite <- !app_assoc. reflexivity. }
    clearbody s3.
    destruct (process_issue_throttled_store W repo_name ds_path n 3 i4 s3 H4)
      as (tail & T & _ & _ & _).
    cbv zeta in T. rewrite A3, T3 in T.
    exists ([EGetComments repo_name (Issue.number i1);
             EAppend (record_of repo_name i1);
             EGetComments repo_name (Issue.number i2);
             EAppend (record_of repo_name i2);
             EGetComments repo_name (Issue.number i3);
             EAppend (record_of repo_name i3)]
            ++ [EGetComments repo_name (Issue.number i4); ELogRateLimit 3 n]).
    destruct (process_issue W repo_name ds_path n 3 i4 s3) as [[[]|e] s4].
    + destruct (for_issues_advances W repo_name ds_path n rest 4 s4)
        as (tr & Tr & _).
      exists (EGetRateLimit :: tail ++ tr).
      split; [|split; reflexivity].
      rewrite Tr. simpl in T. rewrite T. rewrite <- !app_assoc. reflexivity.
    + exists (EGetRateLimit :: tail).
      split; [|split; reflexivity].
      simpl in T. simpl. rewrite T. rewrite <- !app_assoc. reflexivity.
Qed.

Lemma checkpoint_is_collection_so_far_witness :
  (∃ pre post,
     trace (snd (for_issues (scripted [throttled_at_fourth] 1000 880)
                   "widgets" "ckpt" 5 0
                   [Yield (an_issue 1 open None (CommentsOk ["a"; "b"]));
                    Yield (an_issue 2 closed
                             (Some (mk_datetime 2024 2 29 23 59 59))
                             (CommentsOk []));
                    Yield (an_issue 3 open None (CommentsOk ["c"]));
                    Yield (an_issue 4 open None
                             (CommentsRaise RateLimitExceededException));
                    Yield (an_issue 5 open None (CommentsOk []))]
                   initial_store))
     = trace initial_store ++ pre
       ++ ESaveToDisk
            [record_of "widgets" (an_issue 1 open None (CommentsOk ["a"; "b"]));
             record_of "widgets"
               (an_issue 2 closed (Some (mk_datetime 2024 2 29 23 59 59))
                  (CommentsOk []));
             record_of "widgets" (an_issue 3 open None (CommentsOk ["c"]))]
            "ckpt" :: post ∧
     forallb (λ e, negb (is_save e)) pre = true ∧
     length
       [record_of "widgets" (an_issue 1 open None (CommentsOk ["a"; "b"]));
        record_of "widgets"
          (an_issue 2 closed (Some (mk_datetime 2024 2 29 23 59 59))
             (CommentsOk []));
        record_of "widgets" (an_issue 3 open None (CommentsOk ["c"]))] = 3) ∧
  (let s1 :=
     snd (process_issue (scripted [] 1000 880) "widgets" "ckpt" 5 3
            (an_issue 4 open None (CommentsRaise RateLimitExceededException))
            initial_store) in
   disk s1 !! "ckpt" = Some (all_issues initial_store) ∧
   all_issues s1 = all_issues initial_store).
Proof.
  split.
  - apply (checkpoint_is_collection_so_far
             (scripted [throttled_at_fourth] 1000 880) (Some "acme")
             (Some ["widgets"]) (Some "token") "ckpt" initial_store)
      with (b1 := ["a"; "b"]) (b2 := []) (b3 := ["c"]); reflexivity.
  - apply (checkpoint_is_collection_so_far
             (scripted [] 1000 880) (Some "acme")
             (Some ["widgets"]) (Some "token") "ckpt" initial_store).
    reflexivity.
Defined.

(** ** Errors other than the rate limit (C8) *)

Lemma for_each_app {A : Type} (body : A → M unit) (l1 l2 : list A) (s : Store) :
  for_each body (l1 ++ l2) s
  = match for_each body l1 s with
    | (Return _, s1) => for_each body l2 s1
    | (Raise e, s1) => (Raise e, s1)
    end.
Proof.
  revert s; induction l1 as [|x l1 IH]; intros s; simpl.
  - reflexivity.
  - run. destruct (body x s) as [[[]|e] s1]; [apply IH | reflexivity].
Qed.

Lemma for_issues_app W repo_name ds_path n pre post :
  ∀ i s,
    for_issues W repo_name ds_path n i (pre ++ post) s
    = match for_issues W repo_name ds_path n i pre s with
      | (Return _, s1) =>
          for_issues W repo_name ds_path n (i + length pre) post s1
      | (Raise e, s1) => (Raise e, s1)
      end.
Proof.
  induction pre as [|[issue|e] pre IH]; intros i s.
  - simpl. rewrite Nat.add_0_r. reflexivity.
  - simpl app. rewrite !for_issues_yield.
    destruct (process_issue W repo_name ds_path n i issue s) as [[[]|e] s1];
      [|reflexivity].
    rewrite IH. simpl length. rewrite Nat.add_succ_r. reflexivity.
  - reflexivity.
Qed.

Lemma process_repo_rejected W gh_org gh_token ds_path repo_name e s :
  Auth_Token W gh_token = Some e →
  process_repo W gh_org gh_token ds_path repo_name s
  = (Raise e, log (EAuth gh_token) s).
Proof.
  intros H. unfold process_repo, new_client. run. rewrite H. reflexivity.
Qed.

Lemma process_repo_raise W gh_org gh_token ds_path repo_name e s :
  Auth_Token W gh_token = None →
  get_repo W (repo_calls s) (full_name gh_org repo_name) = RepoRaise e →
  process_repo W gh_org gh_token ds_path repo_name s
  = (Raise e, requested gh_org gh_token repo_name s).
Proof.
  intros Ha Hr. unfold process_repo, new_client, gh_get_issues, requested.
  run. rewrite Ha. simpl. fold (full_name gh_org repo_name). rewrite Hr.
  reflexivity.
Qed.

Lemma process_repo_issues W gh_org gh_token ds_path repo_name n items s :
  Auth_Token W gh_token = None →
  get_repo W (repo_calls s) (full_name gh_org repo_name) = RepoIssues n items →
  process_repo W gh_org gh_token ds_path repo_name s
  = for_issues W repo_name ds_path n 0 items
      (requested gh_org gh_token repo_name s).
Proof.
  intros Ha Hr. unfold process_repo, new_client, gh_get_issues, requested.
  run. rewrite Ha. simpl. fold (full_name gh_org repo_name). rewrite Hr.
  reflexivity.
Qed.

Lemma for_issues_fails W repo_name ds_path n i item post e s :
  is_rate_limit e = false →
  fails_with item e →
  ∃ s',
    for_issues W repo_name ds_path n i (item :: post) s = (Raise e, s') ∧
    disk s' = disk s ∧
    all_issues s' = all_issues s ∧
    trace s' = trace s ++ attempt repo_name item.
Proof.
  intros He Hf. destruct item as [issue | e']; simpl in Hf.
  - rewrite for_issues_yield, (process_issue_error _ _ _ _ _ _ _ _ Hf He).
    eexists. repeat split.
  - subst e'. exists s. simpl. rewrite app_nil_r. repeat split.
Qed.

Lemma extract_unfold W gh_org repos gh_token ds_path s :
  extract_gh_repo_issues W gh_org (Some repos) gh_token ds_path s
  = match for_each (process_repo W gh_org gh_token ds_path) repos
            (set_all_issues [] s) with
    | (Return _, s') => (Return (all_issues s'), s')
    | (Raise e, s') => (Raise e, s')
    end.
Proof.
  unfold extract_gh_repo_issues, new_all_issues, iterate, read_all_issues,
    Dataset_from_list.
  run. destruct (for_each _ repos _) as [[[]|e] s']; reflexivity.
Qed.

(** C8: an error other than the rate-limit signal, raised while the client
    is built, while a repository is requested, by the issue iterator, by a
    comment fetch or by the status request of the handler, comes out of
    [extract_gh_repo_issues] as the same exception; the run ends at the
    failing request (nothing is attempted after it) and nothing is written
    for it: the disk is as the run left it before, with the snapshot of the
    rate-limit event when the error is the handler's. *)
Theorem other_errors_propagate W gh_org gh_token ds_path before name after e
    s s1 :
  is_rate_limit e = false →
  for_each (process_repo W gh_org gh_token ds_path) before
    (set_all_issues [] s) = (Return tt, s1) →
  let run :=
    extract_gh_repo_issues W gh_org (Some (before ++ name :: after)) gh_token
      ds_path s in
  (Auth_Token W gh_token = Some e →
     run = (Raise e, log (EAuth gh_token) s1)) ∧
  (Auth_Token W gh_token = None →
     get_repo W (repo_calls s1) (full_name gh_org name) = RepoRaise e →
     run = (Raise e, requested gh_org gh_token name s1)) ∧
  (∀ n pre item post s2,
     Auth_Token W gh_token = None →
     get_repo W (repo_calls s1) (full_name gh_org name)
     = RepoIssues n (pre ++ item :: post) →
     for_issues W name ds_path n 0 pre (requested gh_org gh_token name s1)
     = (Return tt, s2) →
     fails_with item e →
     ∃ s',
       run = (Raise e, s') ∧
       disk s' = disk s2 ∧
       all_issues s' = all_issues s2 ∧
       trace s' = trace s2 ++ attempt name item) ∧
  (∀ n pre issue post s2,
     Auth_Token W gh_token = None →
     get_repo W (repo_calls s1) (full_name gh_org name)
     = RepoIssues n (pre ++ Yield issue :: post) →
     for_issues W name ds_path n 0 pre (requested gh_org gh_token name s1)
     = (Return tt, s2) →
     Issue.get_comments issue = CommentsRaise RateLimitExceededException →
     get_rate_limit W (waits s2) = Raise e →
     run = (Raise e, asked ds_path (length pre) n name issue s2)).
Proof.
  intros He Hb run. subst run.
  rewrite extract_unfold, for_each_app, Hb. simpl for_each. run.
  split; [|split; [|split]].
  - intros Ha. rewrite (process_repo_rejected _ _ _ _ _ _ _ Ha). reflexivity.
  - intros Ha Hr. rewrite (process_repo_raise _ _ _ _ _ _ _ Ha Hr).
    reflexivity.
  - intros n pre item post s2 Ha Hr Hp Hf.
    rewrite (process_repo_issues _ _ _ _ _ _ _ _ Ha Hr), for_issues_app, Hp.
    destruct (for_issues_fails W name ds_path n (0 + length pre) item post e
                s2 He Hf) as (s' & E & D & A & T).
    rewrite E. exists s'. repeat split; assumption.
  - intros n pre issue post s2 Ha Hr Hp Hc Hs.
    rewrite (process_repo_issues _ _ _ _ _ _ _ _ Ha Hr), for_issues_app, Hp.
    rewrite for_issues_yield, (process_issue_throttled _ _ _ _ _ _ _ Hc).
    unfold handled. rewrite Hs. reflexivity.
Qed.

Lemma other_errors_propagate_witness :
  ∃ s',
    extract_gh_repo_issues (scripted [two_issues; broken_at_second] 1000 880)
      (Some "acme") (Some (["widgets"] ++ "gadgets" :: ["gizmos"]))
      (Some "token") "ckpt" initial_store
    = (Raise (OtherException "ConnectionError"), s') ∧
    disk s' = ∅ ∧
    length (all_issues s') = 3 ∧
    last (trace s') = Some (EGetComments "gadgets" 2).
Proof.
  pose (W := scripted [two_issues; broken_at_second] 1000 880).
  pose (s1 := snd (for_each (process_repo W (Some "acme") (Some "token") "ckpt")
                     ["widgets"] (set_all_issues [] initial_store))).
  pose (s2 := snd (for_issues W "gadgets" "ckpt" 3 0
                     [Yield (an_issue 1 open None (CommentsOk ["a"]))]
                     (requested (Some "acme") (Some "token") "gadgets" s1))).
  destruct (other_errors_propagate W (Some "acme") (Some "token") "ckpt"
              ["widgets"] "gadgets" ["gizmos"]
              (OtherException "ConnectionError") initial_store s1
              eq_refl eq_refl) as (_ & _ & H & _).
  destruct (H 3 [Yield (an_issue 1 open None (CommentsOk ["a"]))]
              (Yield (an_issue 2 open None
                        (CommentsRaise (OtherException "ConnectionError"))))
              [Yield (an_issue 3 open None (CommentsOk []))]
              s2 eq_refl eq_refl eq_refl eq_refl) as (s' & E & D & A & T).
  exists s'. split; [exact E|].
  split; [rewrite D; reflexivity|].
  split; [rewrite A; reflexivity|].
  rewrite T. reflexivity.
Defined.

(** ** Runs without throttling (C5) *)

Lemma for_issues_clean W repo_name ds_path n items :
  forallb clean_item items = true →
  ∀ i s, ∃ s',
    for_issues W repo_name ds_path n i items s = (Return tt, s') ∧
    all_issues s' = all_issues s ++ map (record_of repo_name) (yielded items) ∧
    disk s' = disk s ∧
    repo_calls s' = repo_calls s.
Proof.
  induction items as [|[issue|e] rest IH]; simpl; intros Hc i s.
  - exists s. rewrite app_nil_r. repeat split.
  - apply andb_prop in Hc as [Hi Hrest].
    destruct (Issue.get_comments issue) as [bodies|] eqn:H; [|discriminate].
    fold (for_issues W repo_name ds_path n (S i) rest).
    change (∃ s', for_issues W repo_name ds_path n i (Yield issue :: rest) s
                  = (Return tt, s') ∧
                  all_issues s' = all_issues s
                    ++ record_of repo_name issue
                       :: map (record_of repo_name) (yielded rest) ∧
                  disk s' = disk s ∧ repo_calls s' = repo_calls s).
    rewrite for_issues_yield, (process_issue_ok _ _ _ _ _ _ _ _ H).
    destruct (IH Hrest (S i) (collected repo_name issue s))
      as (s' & E & A & D & R).
    exists s'. split; [exact E|]. rewrite A, D, R. simpl.
    rewrite <- app_assoc. repeat split.
  - discriminate.
Qed.

Lemma for_issues_returns_clean W repo_name ds_path n items :
  forallb unthrottled_item items = true →
  ∀ i s s',
    for_issues W repo_name ds_path n i items s = (Return tt, s') →
    forallb clean_item items = true.
Proof.
  induction items as [|[issue|e] rest IH]; intros Hu i s s' Hr.
  - reflexivity.
  - simpl in Hu. apply andb_prop in Hu as [Hi Hrest].
    rewrite for_issues_yield in Hr. simpl.
    destruct (Issue.get_comments issue) as [bodies|e] eqn:H.
    + rewrite (process_issue_ok _ _ _ _ _ _ _ _ H) in Hr.
      apply (IH Hrest _ _ _ Hr).
    + apply negb_true_iff in Hi.
      rewrite (process_issue_error _ _ _ _ _ _ _ _ H Hi) in Hr.
      discriminate Hr.
  - discriminate Hr.
Qed.

Lemma process_repo_clean W gh_org gh_token ds_path repo_name s :
  Auth_Token W gh_token = None →
  clean_response (get_repo W (repo_calls s) (full_name gh_org repo_name))
  = true →
  ∃ s',
    process_repo W gh_org gh_token ds_path repo_name s = (Return tt, s') ∧
    all_issues s' = all_issues s
      ++ map (record_of repo_name)
           (issues_of (get_repo W (repo_calls s) (full_name gh_org repo_name))) ∧
    disk s' = disk s ∧
    repo_calls s' = S (repo_calls s).
Proof.
  intros Ha Hc.
  destruct (get_repo W (repo_calls s) (full_name gh_org repo_name))
    as [e | n items] eqn:Hr; [discriminate Hc|].
  rewrite (process_repo_issues _ _ _ _ _ _ _ _ Ha Hr).
  destruct (for_issues_clean W repo_name ds_path n items Hc 0
              (requested gh_org gh_token repo_name s)) as (s' & E & A & D & R).
  exists s'. split; [exact E|]. rewrite A, D, R. repeat split.
Qed.

Lemma process_repo_returns_clean W gh_org gh_token ds_path repo_name s s' :
  unthrottled_response (get_repo W (repo_calls s) (full_name gh_org repo_name))
  = true →
  process_repo W gh_org gh_token ds_path repo_name s = (Return tt, s') →
  Auth_Token W gh_token = None ∧
  clean_response (get_repo W (repo_calls s) (full_name gh_org repo_name))
  = true.
Proof.
  intros Hu Hr.
  destruct (Auth_Token W gh_token) as [e|] eqn:Ha.
  { rewrite (process_repo_rejected _ _ _ _ _ _ _ Ha) in Hr. discriminate Hr. }
  split; [reflexivity|].
  destruct (get_repo W (repo_calls s) (full_name gh_org repo_name))
    as [e | n items] eqn:Hg.
  - rewrite (process_repo_raise _ _ _ _ _ _ _ Ha Hg) in Hr. discriminate Hr.
  - rewrite (process_repo_issues _ _ _ _ _ _ _ _ Ha Hg) in Hr.
    apply (for_issues_returns_clean _ _ _ _ _ Hu _ _ _ Hr).
Qed.

Lemma for_each_repo_clean W gh_org gh_token ds_path repos :
  Auth_Token W gh_token = None →
  ∀ s,
    all_responses clean_response W gh_org (repo_calls s) repos = true →
    ∃ s',
      for_each (process_repo W gh_org gh_token ds_path) repos s
      = (Return tt, s') ∧
      all_issues s' = all_issues s
        ++ expected_records W gh_org (repo_calls s) repos ∧
      disk s' = disk s.
Proof.
  intros Ha. induction repos as [|name rest IH]; intros s Hc; simpl.
  - exists s. rewrite app_nil_r. repeat split.
  - simpl in Hc. apply andb_prop in Hc as [Hname Hrest].
    destruct (process_repo_clean W gh_org gh_token ds_path name s Ha Hname)
      as (s1 & E1 & A1 & D1 & R1).
    rewrite <- R1 in Hrest.
    destruct (IH s1 Hrest) as (s' & E & A & D).
    exists s'. run. rewrite E1. split; [exact E|].
    rewrite A, A1, D, D1, R1, <- app_assoc. repeat split.
Qed.

Lemma for_each_repo_returns_clean W gh_org gh_token ds_path repos :
  ∀ s s',
    all_responses unthrottled_response W gh_org (repo_calls s) repos = true →
    for_each (process_repo W gh_org gh_token ds_path) repos s
    = (Return tt, s') →
    all_responses clean_response W gh_org (repo_calls s) repos = true ∧
    (repos ≠ [] → Auth_Token W gh_token = None).
Proof.
  induction repos as [|name rest IH]; intros s s' Hu Hr.
  - split; [reflexivity | congruence].
  - simpl in Hu. apply andb_prop in Hu as [Hname Hrest].
    simpl in Hr. run.
    destruct (process_repo W gh_org gh_token ds_path name s)
      as [[[]|e] s1] eqn:E1; [|discriminate Hr].
    destruct (process_repo_returns_clean _ _ _ _ _ _ _ Hname E1) as [Ha Hc].
    destruct (process_repo_clean W gh_org gh_token ds_path name s Ha Hc)
      as (s1' & E1' & _ & _ & R1).
    rewrite E1 in E1'. injection E1' as <-.
    rewrite <- R1 in Hrest.
    destruct (IH s1 s' Hrest Hr) as [Hc' _].
    split; [|intros _; exact Ha].
    simpl. rewrite Hc. rewrite <- R1. exact Hc'.
Qed.

Lemma expected_records_length W gh_org repos :
  ∀ k, length (expected_records W gh_org k repos)
       = total_issue_count W gh_org k repos.
Proof.
  induction repos as [|name rest IH]; intros k; simpl; [reflexivity|].
  rewrite length_app, length_map, IH. reflexivity.
Qed.

(** C5: when no response to the requests for the listed repositories
    carries a rate-limit signal, a returned collection is the records of the
    repositories' issues, one group per repository in the order given, each
    group in the order the issues were yielded, and its length is the sum of
    the repositories' issue counts; and the function does return it when no
    response carries any error. Nothing is saved in such a run. *)
Theorem records_grouped_by_repository W gh_org repos gh_token ds_path s :
  repos ≠ [] →
  all_responses unthrottled_response W gh_org (repo_calls s) repos = true →
  let expected := expected_records W gh_org (repo_calls s) repos in
  length expected = total_issue_count W gh_org (repo_calls s) repos ∧
  (∀ ds s',
     extract_gh_repo_issues W gh_org (Some repos) gh_token ds_path s
     = (Return ds, s') →
     ds = expected ∧ disk s' = disk s) ∧
  (Auth_Token W gh_token = None →
   all_responses clean_response W gh_org (repo_calls s) repos = true →
   ∃ s',
     extract_gh_repo_issues W gh_org (Some repos) gh_token ds_path s
     = (Return expected, s')).
Proof.
  intros Hne Hu expected.
  assert (∀ s0, Auth_Token W gh_token = None →
            all_responses clean_response W gh_org (repo_calls s) repos = true →
            s0 = set_all_issues [] s →
            ∃ s', for_each (process_repo W gh_org gh_token ds_path) repos s0
                  = (Return tt, s') ∧
                  all_issues s' = expected ∧ disk s' = disk s) as Hrun.
  { intros s0 Ha Hc ->.
    destruct (for_each_repo_clean W gh_org gh_token ds_path repos Ha
                (set_all_issues [] s) Hc) as (s' & E & A & D).
    exists s'. repeat split; assumption. }
  split; [apply expected_records_length|]. split.
  - intros ds s' Hr. rewrite extract_unfold in Hr.
    destruct (for_each _ repos _) as [[[]|e] s1] eqn:E; [|discriminate Hr].
    injection Hr as <- <-.
    destruct (for_each_repo_returns_clean W gh_org gh_token ds_path repos
                (set_all_issues [] s) s1 Hu E) as [Hc Ha].
    destruct (Hrun _ (Ha Hne) Hc eq_refl) as (s' & E' & A & D).
    rewrite E in E'. injection E' as <-. split; assumption.
  - intros Ha Hc.
    destruct (Hrun _ Ha Hc eq_refl) as (s' & E & A & D).
    exists s'. rewrite extract_unfold, E, A. reflexivity.
Qed.

Lemma records_grouped_by_repository_witness :
  let W := scripted [two_issues; one_issue] 0 0 in
  let expected := expected_records W (Some "acme") 0 ["widgets"; "gadgets"] in
  length expected = 3 ∧
  map IssueData.repo expected = ["widgets"; "widgets"; "gadgets"] ∧
  map IssueData.number expected = [1; 2; 7]%Z ∧
  ∃ s',
    extract_gh_repo_issues W (Some "acme") (Some ["widgets"; "gadgets"])
      (Some "token") "ckpt" initial_store
    = (Return expected, s').
Proof.
  intros W expected.
  assert (["widgets"; "gadgets"] ≠ []) as Hne by discriminate.
  destruct (records_grouped_by_repository W (Some "acme")
              ["widgets"; "gadgets"] (Some "token") "ckpt" initial_store
              Hne eq_refl) as (L & _ & R).
  split; [exact L|]. split; [reflexivity|]. split; [reflexivity|].
  apply R; reflexivity.
Defined.

(** ** Rate-limit signals the loop does not absorb (C2, C3) *)

(** C2 fails on the code: the [try] covers the body of the inner loop only,
    so a rate-limit signal raised by the issue iterator leaves the function
    at once, for every store and every rest of the list. In the run shown
    the listing is throttled after the first issue: the exception comes out
    of [extract_gh_repo_issues], nothing is saved, no wait is made and the
    issue listed after it is never reached. *)
Theorem rate_limit_from_issue_list_propagates :
  (∀ W repo_name ds_path n i rest s,
     for_issues W repo_name ds_path n i
       (IterRaise RateLimitExceededException :: rest) s
     = (Raise RateLimitExceededException, s)) ∧
  (let r := extract_gh_repo_issues (scripted [throttled_listing] 1000 880)
              (Some "acme") (Some ["widgets"]) (Some "token") "ckpt"
              initial_store in
   fst r = Raise RateLimitExceededException ∧
   disk (snd r) = ∅ ∧
   trace (snd r)
   = [EAuth (Some "token"); EGetRepo (Some "token") "acme/widgets";
      EGetComments "widgets" 1;
      EAppend (record_of "widgets" (an_issue 1 open None (CommentsOk ["a"])))]).
Proof.
  split; [reflexivity|]. repeat split.
Qed.

(** C3 fails on the code: after the handler of a throttled comment fetch the
    loop goes on with the item after the throttled issue, at the next index,
    and the handler leaves the collection as it was; the throttled issue is
    not fetched again. In the run shown, issue 4 of 5 is throttled: the
    function returns the records of issues 1, 2, 3 and 5, and none for
    issue 4. *)
Theorem throttled_issue_is_skipped :
  (∀ W repo_name path n i num st ttl txt created closure rest s,
     let issue := Issue.mk num st ttl txt created closure
                    (CommentsRaise RateLimitExceededException) in
     for_issues W repo_name path n i (Yield issue :: rest) s
     = match handled W path i n repo_name issue s with
       | (Return _, s') => for_issues W repo_name path n (S i) rest s'
       | (Raise e, s') => (Raise e, s')
       end ∧
     all_issues (snd (handled W path i n repo_name issue s)) = all_issues s) ∧
  (∃ ds s',
     extract_gh_repo_issues (scripted [throttled_at_fourth] 1000 880)
       (Some "acme") (Some ["widgets"]) (Some "token") "ckpt" initial_store
     = (Return ds, s') ∧
     map IssueData.number ds = [1; 2; 3; 5]%Z ∧
     (disk s' !! "ckpt" = Some (take 3 ds))).
Proof.
  split.
  - intros W repo_name path n i num st ttl txt created closure rest s issue.
    split.
    + rewrite for_issues_yield.
      rewrite (process_issue_throttled W repo_name path n i issue s eq_refl).
      reflexivity.
    + destruct (handled_cases W path i n repo_name issue s)
        as [[e E] | [E | [w E]]]; rewrite E; reflexivity.
  - eexists. eexists. split; [vm_compute; reflexivity|].
    split; vm_compute; reflexivity.
Qed.

(** ** Missing configuration (C9) *)

Lemma main_unfold W args s :
  main W args s
  = match extract_gh_repo_issues W (org args) (repos args) (gh_token args)
            "./hf_repo_issues" s with
    | (Return ds, s') =>
        (Return tt, log (EPushToHub ds (hf_repo args) (hf_token args)) s')
    | (Raise e, s') => (Raise e, s')
    end.
Proof.
  unfold main, push_to_hub. run.
  destruct (extract_gh_repo_issues _ _ _ _ _ s) as [[ds|e] s']; reflexivity.
Qed.

Lemma process_repo_first_request W gh_org gh_token path repo_name s :
  Auth_Token W gh_token = None →
  ∃ tr,
    trace (snd (process_repo W gh_org gh_token path repo_name s))
    = trace s ++ EAuth gh_token
        :: EGetRepo gh_token (full_name gh_org repo_name) :: tr.
Proof.
  intros Ha.
  destruct (get_repo W (repo_calls s) (full_name gh_org repo_name))
    as [e | n items] eqn:Hr.
  - rewrite (process_repo_raise _ _ _ _ _ _ _ Ha Hr). exists [].
    unfold requested; simpl. rewrite <- app_assoc. reflexivity.
  - rewrite (process_repo_issues _ _ _ _ _ _ _ _ Ha Hr).
    destruct (for_issues_advances W repo_name path n items 0
                (requested gh_org gh_token repo_name s)) as (tr & T & _).
    exists tr. rewrite T. unfold requested; simpl.
    rewrite <- !app_assoc. reflexivity.
Qed.

(** C9, as stated, fails: with the organization missing, and the repository
    list and the token given, no error is surfaced; the repository
    "None/widgets" is requested and the run goes on to the publication. *)
Lemma missing_org_reaches_network :
  let args := {| org := None; repos := Some ["widgets"];
                 gh_token := Some "token"; hf_token := Some "hf";
                 hf_repo := Some "acme/issues"; ds_path := None |} in
  let W := scripted [two_issues] 0 0 in
  missing_configuration args ∧
  ¬ spec_configuration_error W args initial_store ∧
  fst (main W args initial_store) = Return tt ∧
  (trace (snd (main W args initial_store))) !! 1%nat
  = Some (EGetRepo (Some "token") "None/widgets").
Proof.
  intros args W.
  split; [left; reflexivity|].
  split; [|split; reflexivity].
  intros H. destruct H as (e & s' & E & _); [left; reflexivity|].
  vm_compute in E. discriminate E.
Qed.

(** C9, amended: the script checks no configuration value itself. A missing
    repository list ends the run with a [TypeError] before a client is built
    or a request is sent. With a repository list, a missing organization or
    token is passed on as it is: when the client library rejects the token
    the run ends with the library's error before any request; otherwise the
    first request is sent for the first repository, under the organization
    as given (the text "None" when it is missing) and with the token as
    given. *)
Theorem configuration_is_not_checked W args s :
  (repos args = None →
     main W args s = (Raise TypeError, set_all_issues [] s) ∧
     trace (set_all_issues [] s) = trace s) ∧
  (∀ name rest e,
     repos args = Some (name :: rest) →
     Auth_Token W (gh_token args) = Some e →
     main W args s
     = (Raise e, log (EAuth (gh_token args)) (set_all_issues [] s))) ∧
  (∀ name rest,
     repos args = Some (name :: rest) →
     Auth_Token W (gh_token args) = None →
     ∃ tr,
       trace (snd (main W args s))
       = trace s ++ EAuth (gh_token args)
           :: EGetRepo (gh_token args) (py_str (org args) +:+ "/" +:+ name)
           :: tr) ∧
  py_str None = "None".
Proof.
  split; [|split; [|split; [|reflexivity]]].
  - intros H. rewrite main_unfold, H. split; reflexivity.
  - intros name rest e H Ha.
    rewrite main_unfold, H, extract_unfold. simpl for_each. run.
    rewrite (process_repo_rejected _ _ _ _ _ _ _ Ha). reflexivity.
  - intros name rest H Ha.
    rewrite main_unfold, H, extract_unfold. simpl for_each. run.
    destruct (process_repo_first_request W (org args) (gh_token args)
                "./hf_repo_issues" name (set_all_issues [] s) Ha)
      as (tr1 & T1).
    fold (full_name (org args) name).
    destruct (process_repo W (org args) (gh_token args) "./hf_repo_issues"
                name (set_all_issues [] s)) as [[[]|e] s1]; simpl in T1.
    + destruct (for_each_repo_advances W (org args) (gh_token args)
                  "./hf_repo_issues" rest s1) as (tr2 & T2 & _).
      destruct (for_each _ rest s1) as [[[]|e] s2]; simpl in T2; simpl;
        rewrite T2, T1; rewrite <- ?app_assoc; simpl; eexists; reflexivity.
    + simpl. rewrite T1. eexists; reflexivity.
Qed.

Lemma configuration_is_not_checked_witness :
  (main (scripted [two_issues] 0 0)
     {| org := Some "acme"; repos := None; gh_token := Some "token";
        hf_token := None; hf_repo := None; ds_path := None |} initial_store
   = (Raise TypeError, set_all_issues [] initial_store)) ∧
  (∃ tr,
     trace (snd (main (scripted [two_issues] 0 0)
                   {| org := None; repos := Some ["widgets"];
                      gh_token := None; hf_token := None; hf_repo := None;
                      ds_path := None |} initial_store))
     = trace initial_store ++ EAuth None :: EGetRepo None "None/widgets" :: tr).
Proof.
  split.
  - apply (configuration_is_not_checked (scripted [two_issues] 0 0)
             {| org := Some "acme"; repos := None; gh_token := Some "token";
                hf_token := None; hf_repo := None; ds_path := None |}
             initial_store).
    reflexivity.
  - apply (configuration_is_not_checked (scripted [two_issues] 0 0)
             {| org := None; repos := Some ["widgets"];
                gh_token := None; hf_token := None; hf_repo := None;
                ds_path := None |} initial_store) with (rest := []);
      reflexivity.
Defined.

(** * Further properties *)

(** ** Statements about the events of a run, by composition *)

Lemma new_events_app (s s' : Store) (tr : list event) :
  trace s' = trace s ++ tr → new_events s s' = tr.
Proof. intros H. unfold new_events. rewrite H. apply drop_app_length. Qed.

Lemma count_app (f : event → bool) (tr1 tr2 : list event) :
  count f (tr1 ++ tr2) = count f tr1 + count f tr2.
Proof.
  induction tr1 as [|e tr1 IH]; simpl; [reflexivity|]. rewrite IH. lia.
Qed.

Section Composition.
(** A property of stretches of events that holds of the empty stretch, of
    the events of each single step of the loops, and of the concatenation
    of two stretches that have it, holds of the events of every run. *)
Variable ds_path : string.
Variable P : list event → Prop.
Hypothesis P_nil : P [].
Hypothesis P_app : ∀ tr1 tr2, P tr1 → P tr2 → P (tr1 ++ tr2).
Hypothesis P_record : ∀ name number d, P [EGetComments name number; EAppend d].
Hypothesis P_failed : ∀ name number, P [EGetComments name number].
Hypothesis P_saved : ∀ name number i n ds,
  P [EGetComments name number; ELogRateLimit i n; ESaveToDisk ds ds_path;
     EGetRateLimit].
Hypothesis P_slept : ∀ name number i n ds w,
  Qle_bool 0 w = true →
  P [EGetComments name number; ELogRateLimit i n; ESaveToDisk ds ds_path;
     EGetRateLimit; ESleep w].

Lemma handled_slept W i n repo_name issue s w :
  handled W ds_path i n repo_name issue s
  = (Return tt, log (ESleep w) (checkpointed ds_path i n repo_name issue s)) →
  Qle_bool 0 w = true.
Proof.
  unfold handled.
  destruct (get_rate_limit W (waits s)) as [reset|e]; [|discriminate].
  unfold time_sleep, emit.
  destruct (Qle_bool 0 _) eqn:E; [|discriminate].
  intros H. apply (f_equal (λ r, last (trace (snd r)))) in H.
  simpl in H. rewrite !last_snoc in H. injection H as <-. exact E.
Qed.

Lemma process_issue_composed W repo_name n i issue s :
  ∃ tr,
    trace (snd (process_issue W repo_name ds_path n i issue s))
    = trace s ++ tr ∧ P tr.
Proof.
  destruct (Issue.get_comments issue) as [bodies | e] eqn:H.
  - rewrite (process_issue_ok _ _ _ _ _ _ _ _ H).
    eexists [_; _]. unfold collected; simpl. rewrite <- app_assoc.
    split; [reflexivity | apply P_record].
  - destruct (is_rate_limit e) eqn:He.
    + destruct e; try discriminate He.
      rewrite (process_issue_throttled _ _ _ _ _ _ _ H).
      destruct (handled_cases W ds_path i n repo_name issue s)
        as [[e E] | [E | [w E]]].
      * rewrite E. eexists [_; _; _; _]. simpl. rewrite <- !app_assoc.
        split; [reflexivity | apply P_saved].
      * rewrite E. eexists [_; _; _; _]. simpl. rewrite <- !app_assoc.
        split; [reflexivity | apply P_saved].
      * pose proof (handled_slept _ _ _ _ _ _ _ E) as Hw. rewrite E.
        eexists [_; _; _; _; _]. simpl. rewrite <- !app_assoc.
        split; [reflexivity | apply P_slept; exact Hw].
    + rewrite (process_issue_error _ _ _ _ _ _ _ _ H He).
      eexists [_]. split; [reflexivity | apply P_failed].
Qed.

Lemma for_issues_composed W repo_name n items :
  ∀ i s, ∃ tr,
    trace (snd (for_issues W repo_name ds_path n i items s))
    = trace s ++ tr ∧ P tr.
Proof.
  induction items as [|[issue | e] rest IH]; intros i s.
  - exists []. simpl. rewrite app_nil_r. auto.
  - rewrite for_issues_yield.
    destruct (process_issue_composed W repo_name n i issue s)
      as (tr1 & T1 & P1).
    destruct (process_issue W repo_name ds_path n i issue s)
      as [[[]|e] s1]; simpl in T1.
    + destruct (IH (S i) s1) as (tr2 & T2 & P2).
      exists (tr1 ++ tr2). rewrite T2, T1, app_assoc. auto.
    + exists tr1. auto.
  - exists []. simpl. rewrite app_nil_r. auto.
Qed.

Hypothesis P_client : ∀ token, P [EAuth token].
Hypothesis P_repo : ∀ token name, P [EGetRepo token name].

Lemma process_repo_composed W gh_org gh_token repo_name s :
  ∃ tr,
    trace (snd (process_repo W gh_org gh_token ds_path repo_name s))
    = trace s ++ tr ∧ P tr.
Proof.
  destruct (Auth_Token W gh_token) as [e|] eqn:Ha.
  - rewrite (process_repo_rejected _ _ _ _ _ _ _ Ha).
    exists [EAuth gh_token]. auto.
  - destruct (get_repo W (repo_calls s) (full_name gh_org repo_name))
      as [e | n items] eqn:Hr.
    + rewrite (process_repo_raise _ _ _ _ _ _ _ Ha Hr).
      exists ([EAuth gh_token]
              ++ [EGetRepo gh_token (full_name gh_org repo_name)]).
      unfold requested; simpl. rewrite <- app_assoc.
      split; [reflexivity | apply (P_app [_] [_]); auto].
    + rewrite (process_repo_issues _ _ _ _ _ _ _ _ Ha Hr).
      destruct (for_issues_composed W repo_name n items 0
                  (requested gh_org gh_token repo_name s))
        as (tr & T & Ptr).
      exists (([EAuth gh_token]
               ++ [EGetRepo gh_token (full_name gh_org repo_name)]) ++ tr).
      rewrite T. unfold requested; simpl. rewrite <- !app_assoc.
      split; [reflexivity|].
      apply (P_app [_; _] tr); [apply (P_app [_] [_])|]; auto.
Qed.

Lemma extract_composed W gh_org gh_repos gh_token s :
  P (new_events s
       (snd (extract_gh_repo_issues W gh_org gh_repos gh_token ds_path s))).
Proof.
  destruct gh_repos as [repos|].
  - rewrite extract_unfold.
    assert (∀ s0, ∃ tr,
              trace (snd (for_each (process_repo W gh_org gh_token ds_path)
                            repos s0)) = trace s0 ++ tr ∧ P tr) as H.
    { induction repos as [|name rest IH]; intros s0; simpl.
      - exists []. rewrite app_nil_r. auto.
      - run.
        destruct (process_repo_composed W gh_org gh_token name s0)
          as (tr1 & T1 & P1).
        destruct (process_repo W gh_org gh_token ds_path name s0)
          as [[[]|e] s1]; simpl in T1.
        + destruct (IH s1) as (tr2 & T2 & P2).
          exists (tr1 ++ tr2). rewrite T2, T1, app_assoc. auto.
        + exists tr1. auto. }
    destruct (H (set_all_issues [] s)) as (tr & T & Ptr).
    destruct (for_each _ repos _) as [[[]|e] s1]; simpl in *;
      rewrite (new_events_app s s1 tr T); exact Ptr.
  - unfold extract_gh_repo_issues, new_all_issues, iterate. run.
    unfold new_events. simpl. rewrite drop_all. exact P_nil.
Qed.
End Composition.

(** ** Waits and snapshots *)

Lemma waits_follow_snapshots_app ds_path tr1 tr2 :
  waits_follow_snapshots ds_path tr1 →
  waits_follow_snapshots ds_path tr2 →
  waits_follow_snapshots ds_path (tr1 ++ tr2).
Proof.
  intros H1 H2 k w Hk. apply lookup_app_Some in Hk as [Hk | [Hlen Hk]].
  - destruct (H1 k w Hk) as (Hw & j & ds & -> & Hj & Hj').
    split; [exact Hw|]. exists j, ds.
    split; [reflexivity|].
    split; apply lookup_app_l_Some; assumption.
  - destruct (H2 _ w Hk) as (Hw & j & ds & Ek & Hj & Hj').
    split; [exact Hw|]. exists (length tr1 + j), ds.
    split; [lia|].
    split.
    + rewrite lookup_app_r by lia.
      replace (length tr1 + j - length tr1) with j by lia. exact Hj.
    + rewrite lookup_app_r by lia.
      replace (S (length tr1 + j) - length tr1) with (S j) by lia. exact Hj'.
Qed.

Ltac no_sleep_here :=
  intros k w Hk;
  repeat first [discriminate Hk | destruct k as [|k]].

(** X6: in every run of [extract_gh_repo_issues], whatever its outcome,
    each sleep is of a length that is not negative and comes right after a
    snapshot saved to [ds_path] and the status request; there are as many
    snapshots as logged rate-limit events and as status requests, and at
    most as many sleeps. *)
Theorem waits_come_after_snapshots W gh_org gh_repos gh_token ds_path s :
  let tr :=
    new_events s
      (snd (extract_gh_repo_issues W gh_org gh_repos gh_token ds_path s)) in
  waits_follow_snapshots ds_path tr ∧
  count is_save tr = count is_rate_limit_log tr ∧
  count is_save tr = count is_status_request tr ∧
  (count is_sleep tr <= count is_save tr)%nat.
Proof.
  intros tr. subst tr. split.
  - apply (extract_composed ds_path (waits_follow_snapshots ds_path)).
    + no_sleep_here.
    + apply waits_follow_snapshots_app.
    + intros name number d. no_sleep_here.
    + intros name number. no_sleep_here.
    + intros name number i n ds. no_sleep_here.
    + intros name number i n ds w Hw k w' Hk.
      do 4 (destruct k as [|k]; [discriminate Hk|]).
      destruct k as [|k]; [|discriminate Hk].
      injection Hk as <-. split; [exact Hw|].
      exists 2, ds. repeat split.
    + intros token. no_sleep_here.
    + intros token name. no_sleep_here.
  - apply (extract_composed ds_path
             (λ tr, count is_save tr = count is_rate_limit_log tr ∧
                    count is_save tr = count is_status_request tr ∧
                    (count is_sleep tr <= count is_save tr)%nat));
      try (intros; simpl; lia).
    intros tr1 tr2 (A1 & B1 & C1) (A2 & B2 & C2).
    rewrite !count_app. lia.
Qed.

Lemma waits_come_after_snapshots_witness :
  let tr :=
    new_events initial_store
      (snd (extract_gh_repo_issues (scripted [throttled_twice] 1000 880)
              (Some "acme") (Some ["widgets"]) (Some "token") "ckpt"
              initial_store)) in
  tr !! 8%nat = Some (ESleep (wait_time 1000 880)) ∧
  (∃ j ds,
     8%nat = S (S j) ∧
     tr !! j = Some (ESaveToDisk ds "ckpt") ∧
     tr !! S j = Some EGetRateLimit) ∧
  count is_sleep tr = 2%nat.
Proof.
  intros tr.
  assert (tr !! 8%nat = Some (ESleep (wait_time 1000 880))) as Hk
    by reflexivity.
  split; [exact Hk|]. split; [|reflexivity].
  destruct (waits_come_after_snapshots (scripted [throttled_twice] 1000 880)
              (Some "acme") (Some ["widgets"]) (Some "token") "ckpt"
              initial_store) as [H _].
  apply (H 8%nat (wait_time 1000 880) Hk).
Defined.

(** ** The entry point: checkpoint path and publication *)

Lemma replay_no_saves (tr : list event) :
  count is_save tr = 0%nat →
  ∀ d : gmap string (list IssueData.t), replay tr d = d.
Proof.
  induction tr as [|e tr IH]; intros H d; simpl; [reflexivity|].
  destruct e; simpl in H; try (apply IH; exact H). discriminate H.
Qed.

Lemma saves_go_to_ds_path W gh_org gh_repos gh_token path s :
  ∀ ds q,
    ESaveToDisk ds q
    ∈ new_events s
        (snd (extract_gh_repo_issues W gh_org gh_repos gh_token path s)) →
    q = path.
Proof.
  apply (extract_composed path (λ tr, ∀ ds q, ESaveToDisk ds q ∈ tr → q = path)).
  - intros ds q H. inversion H.
  - intros tr1 tr2 H1 H2 ds q H.
    apply elem_of_app in H as [H|H]; eauto.
  - intros name number d ds q H.
    repeat (apply elem_of_cons in H as [H|H]; [discriminate H|]). inversion H.
  - intros name number ds q H.
    repeat (apply elem_of_cons in H as [H|H]; [discriminate H|]). inversion H.
  - intros name number i n ds0 ds q H.
    apply elem_of_cons in H as [H|H]; [discriminate H|].
    apply elem_of_cons in H as [H|H]; [discriminate H|].
    apply elem_of_cons in H as [H|H]; [injection H as _ ->; reflexivity|].
    apply elem_of_cons in H as [H|H]; [discriminate H|]. inversion H.
  - intros name number i n ds0 w _ ds q H.
    apply elem_of_cons in H as [H|H]; [discriminate H|].
    apply elem_of_cons in H as [H|H]; [discriminate H|].
    apply elem_of_cons in H as [H|H]; [injection H as _ ->; reflexivity|].
    apply elem_of_cons in H as [H|H]; [discriminate H|].
    apply elem_of_cons in H as [H|H]; [discriminate H|]. inversion H.
  - intros token ds q H.
    apply elem_of_cons in H as [H|H]; [discriminate H|]. inversion H.
  - intros token name ds q H.
    apply elem_of_cons in H as [H|H]; [discriminate H|]. inversion H.
Qed.

Lemma extract_trace_and_disk W gh_org gh_repos gh_token path s :
  let s' := snd (extract_gh_repo_issues W gh_org gh_repos gh_token path s) in
  trace s' = trace s ++ new_events s s' ∧
  all_issues s' = appended (new_events s s') ∧
  saves_ok path [] (new_events s s') ∧
  disk s' = replay (new_events s s') (disk s).
Proof.
  destruct (extract_invariant W gh_org gh_repos gh_token path s)
    as (tr & T & A & S & _ & D & _).
  cbv zeta in *. rewrite (new_events_app _ _ _ T). auto.
Qed.

(** X1: the entry point saves every snapshot under "./hf_repo_issues",
    the path written at line 118: the value of [--ds_path] has no effect on
    the run, every snapshot saved during the run is saved under that path,
    and after the run the disk holds under it the last snapshot saved. *)
Theorem snapshots_go_to_the_fixed_path W args s :
  let s' := snd (main W args s) in
  (∀ ds q, ESaveToDisk ds q ∈ new_events s s' → q = "./hf_repo_issues") ∧
  (∀ q, main W (with_ds_path q args) s = main W args s) ∧
  (∀ pre ds q post,
     new_events s s' = pre ++ ESaveToDisk ds q :: post →
     count is_save post = 0%nat →
     disk s' !! "./hf_repo_issues" = Some ds).
Proof.
  intros s'. subst s'.
  pose proof (saves_go_to_ds_path W (org args) (repos args) (gh_token args)
                "./hf_repo_issues" s) as Hsaves.
  destruct (extract_trace_and_disk W (org args) (repos args) (gh_token args)
              "./hf_repo_issues" s) as (T & _ & S & D).
  cbv zeta in T, S, D.
  assert (∀ pre ds q post,
            new_events s
              (snd (extract_gh_repo_issues W (org args) (repos args)
                      (gh_token args) "./hf_repo_issues" s))
            = pre ++ ESaveToDisk ds q :: post →
            count is_save post = 0%nat →
            disk (snd (extract_gh_repo_issues W (org args) (repos args)
                         (gh_token args) "./hf_repo_issues" s))
              !! "./hf_repo_issues" = Some ds) as Hlast.
  { intros pre ds q post E Hpost.
    destruct (saves_ok_split _ _ _ pre ds q post S E) as [-> _].
    rewrite D, E, replay_app. simpl.
    rewrite (replay_no_saves post Hpost). apply lookup_insert_eq. }
  split; [|split; [intros q; reflexivity|]].
  - rewrite main_unfold.
    destruct (extract_gh_repo_issues W (org args) (repos args) (gh_token args)
                "./hf_repo_issues" s) as [[ds0|e] s1]; simpl in *;
      [|exact Hsaves].
    rewrite (new_events_app s _
               (new_events s s1
                ++ [EPushToHub ds0 (hf_repo args) (hf_token args)]))
      by (simpl; rewrite T at 1; rewrite app_assoc; reflexivity).
    intros ds q H. apply elem_of_app in H as [H|H]; [eauto|].
    apply elem_of_cons in H as [H|H]; [discriminate H | inversion H].
  - rewrite main_unfold.
    destruct (extract_gh_repo_issues W (org args) (repos args) (gh_token args)
                "./hf_repo_issues" s) as [[ds0|e] s1]; simpl in *;
      [|exact Hlast].
    rewrite (new_events_app s _
               (new_events s s1
                ++ [EPushToHub ds0 (hf_repo args) (hf_token args)]))
      by (simpl; rewrite T at 1; rewrite app_assoc; reflexivity).
    intros pre ds q post E Hpost.
    destruct post as [|x post'] using rev_ind.
    + apply (app_inj_tail _ pre) in E as [_ E]. discriminate E.
    + clear IHpost'.
      rewrite app_comm_cons, app_assoc in E.
      apply app_inj_tail in E as [E _].
      rewrite count_app in Hpost.
      apply (Hlast pre ds q post' E). lia.
Qed.

Lemma snapshots_go_to_the_fixed_path_witness :
  let args := {| org := Some "acme"; repos := Some ["widgets"];
                 gh_token := Some "token"; hf_token := Some "hf";
                 hf_repo := Some "acme/issues";
                 ds_path := Some "my_progress" |} in
  let W := scripted [throttled_twice] 1000 880 in
  let s' := snd (main W args initial_store) in
  count is_save (new_events initial_store s') = 2%nat ∧
  (length <$> disk s' !! "./hf_repo_issues") = Some 2%nat ∧
  disk s' !! "my_progress" = None ∧
  main W (with_ds_path None args) initial_store = main W args initial_store.
Proof.
  intros args W s'.
  pose proof (snapshots_go_to_the_fixed_path W args initial_store)
    as (_ & Hsame & Hlast).
  fold s' in Hlast.
  pose (tr := new_events initial_store s').
  pose (snapshot := match tr !! 13%nat with
                    | Some (ESaveToDisk ds _) => ds
                    | _ => []
                    end).
  split; [reflexivity|].
  split.
  - assert (disk s' !! "./hf_repo_issues" = Some snapshot) as E.
    { apply (Hlast (take 13 tr) snapshot "./hf_repo_issues" (drop 14 tr));
        [vm_compute; reflexivity | reflexivity]. }
    exact (eq_trans (f_equal (fmap length) E) eq_refl).
  - split; [vm_compute; reflexivity | apply Hsame].
Defined.

Lemma extract_never_pushes W gh_org gh_repos gh_token path s :
  count is_push
    (new_events s
       (snd (extract_gh_repo_issues W gh_org gh_repos gh_token path s)))
  = 0%nat.
Proof.
  apply (extract_composed path (λ tr, count is_push tr = 0%nat));
    try reflexivity.
  intros tr1 tr2 H1 H2. rewrite count_app, H1, H2. reflexivity.
Qed.

(** X2: the entry point publishes once, as its last act, and only after
    [extract_gh_repo_issues] returned: the dataset pushed is the records
    appended during the run, under the repository id and the token given
    (missing or not); when the extraction ends in an exception, the entry
    point ends in the same exception and nothing is pushed. *)
Theorem publication_follows_extraction W args s :
  let r := main W args s in
  let tr := new_events s (snd r) in
  (∀ e, fst r = Raise e →
        count is_push tr = 0%nat ∧
        extract_gh_repo_issues W (org args) (repos args) (gh_token args)
          "./hf_repo_issues" s = (Raise e, snd r)) ∧
  (fst r = Return tt →
   ∃ pre,
     tr = pre ++ [EPushToHub (appended pre) (hf_repo args) (hf_token args)] ∧
     count is_push pre = 0%nat ∧
     fst (extract_gh_repo_issues W (org args) (repos args) (gh_token args)
            "./hf_repo_issues" s) = Return (appended pre)).
Proof.
  intros r tr. subst r tr.
  pose proof (extract_never_pushes W (org args) (repos args) (gh_token args)
                "./hf_repo_issues" s) as Hn.
  destruct (extract_invariant W (org args) (repos args) (gh_token args)
              "./hf_repo_issues" s) as (tr & T & _ & _ & _ & _ & R).
  cbv zeta in T, R. rewrite (new_events_app _ _ _ T) in Hn.
  rewrite main_unfold.
  destruct (extract_gh_repo_issues W (org args) (repos args) (gh_token args)
              "./hf_repo_issues" s) as [[ds|e] s1]; simpl in *.
  - split; [discriminate|]. intros _. exists tr.
    rewrite <- (R ds eq_refl).
    split; [|split; [exact Hn | reflexivity]].
    apply new_events_app. simpl. rewrite T, app_assoc. reflexivity.
  - split; [|discriminate]. intros e' [= <-].
    rewrite (new_events_app _ _ _ T). split; [exact Hn | reflexivity].
Qed.

Lemma publication_follows_extraction_witness :
  (let r := main (scripted [two_issues] 0 0)
              {| org := Some "acme"; repos := Some ["widgets"];
                 gh_token := Some "token"; hf_token := None;
                 hf_repo := Some "acme/issues"; ds_path := None |}
              initial_store in
   ∃ pre,
     new_events initial_store (snd r)
     = pre ++ [EPushToHub (appended pre) (Some "acme/issues") None] ∧
     length (appended pre) = 2%nat) ∧
  (let r := main (scripted [broken_at_second] 0 0)
              {| org := Some "acme"; repos := Some ["widgets"];
                 gh_token := Some "token"; hf_token := None;
                 hf_repo := Some "acme/issues"; ds_path := None |}
              initial_store in
   fst r = Raise (OtherException "ConnectionError") ∧
   count is_push (new_events initial_store (snd r)) = 0%nat).
Proof.
  split.
  - intros r.
    destruct (publication_follows_extraction (scripted [two_issues] 0 0)
                {| org := Some "acme"; repos := Some ["widgets"];
                   gh_token := Some "token"; hf_token := None;
                   hf_repo := Some "acme/issues"; ds_path := None |}
                initial_store) as [_ H].
    destruct (H eq_refl) as (pre & E & _ & R).
    exists pre. split; [exact E|].
    apply (f_equal (λ o, match o with
                         | Return ds => length ds
                         | Raise _ => 0%nat
                         end)) in R.
    symmetry. exact R.
  - intros r. split; [reflexivity|].
    destruct (publication_follows_extraction (scripted [broken_at_second] 0 0)
                {| org := Some "acme"; repos := Some ["widgets"];
                   gh_token := Some "token"; hf_token := None;
                   hf_repo := Some "acme/issues"; ds_path := None |}
                initial_store) as [H _].
    apply (H (OtherException "ConnectionError")). reflexivity.
Defined.

(** ** Snapshots along a run *)

(** X4: the snapshots of a run grow: each one saved after another begins
    with the records of the earlier one, and each is a beginning of the
    collection as the run leaves it; after the run the checkpoint path holds
    the last snapshot saved, and the disk is as before when none was. *)
Theorem snapshots_grow W gh_org gh_repos gh_token path s :
  let s' := snd (extract_gh_repo_issues W gh_org gh_repos gh_token path s) in
  let tr := new_events s s' in
  (∀ pre ds1 p1 mid ds2 p2 post,
     tr = pre ++ ESaveToDisk ds1 p1 :: mid ++ ESaveToDisk ds2 p2 :: post →
     ds1 `prefix_of` ds2) ∧
  (∀ pre ds p post,
     tr = pre ++ ESaveToDisk ds p :: post →
     ds `prefix_of` all_issues s' ∧
     (count is_save post = 0%nat → disk s' !! path = Some ds)) ∧
  (count is_save tr = 0%nat → disk s' = disk s).
Proof.
  intros s' tr.
  destruct (extract_trace_and_disk W gh_org gh_repos gh_token path s)
    as (_ & A & S & D).
  fold s' in A, S, D. fold tr in A, S, D.
  split; [|split].
  - intros pre ds1 p1 mid ds2 p2 post E.
    destruct (saves_ok_split path [] tr pre ds1 p1 _ S E) as [_ ->].
    rewrite app_comm_cons, app_assoc in E.
    destruct (saves_ok_split path [] tr _ ds2 p2 post S E) as [_ ->].
    rewrite appended_app. simpl. exists (appended mid). reflexivity.
  - intros pre ds p post E.
    destruct (saves_ok_split path [] tr pre ds p post S E) as [-> ->].
    split.
    + rewrite A, E, appended_app. simpl. exists (appended post). reflexivity.
    + intros Hpost. rewrite D, E, replay_app. simpl.
      rewrite (replay_no_saves post Hpost). apply lookup_insert_eq.
  - intros H. rewrite D. apply replay_no_saves. exact H.
Qed.

Lemma snapshots_grow_witness :
  let s' := snd (extract_gh_repo_issues (scripted [throttled_twice] 1000 880)
                   (Some "acme") (Some ["widgets"]) (Some "token") "ckpt"
                   initial_store) in
  let tr := new_events initial_store s' in
  ∃ ds1 ds2,
    tr !! 6%nat = Some (ESaveToDisk ds1 "ckpt") ∧
    tr !! 13%nat = Some (ESaveToDisk ds2 "ckpt") ∧
    length ds1 = 1%nat ∧ length ds2 = 2%nat ∧
    ds1 `prefix_of` ds2 ∧
    ds2 `prefix_of` all_issues s' ∧
    disk s' !! "ckpt" = Some ds2.
Proof.
  intros s' tr.
  pose proof (snapshots_grow (scripted [throttled_twice] 1000 880)
                (Some "acme") (Some ["widgets"]) (Some "token") "ckpt"
                initial_store) as (H1 & H2 & _).
  fold s' in H1, H2. fold tr in H1, H2.
  pose (snapshot := λ k, match tr !! k with
                         | Some (ESaveToDisk ds _) => ds
                         | _ => []
                         end).
  exists (snapshot 6%nat), (snapshot 13%nat).
  split; [vm_compute; reflexivity|].
  split; [vm_compute; reflexivity|].
  split; [reflexivity|]. split; [reflexivity|].
  split.
  - apply (H1 (take 6 tr) (snapshot 6%nat) "ckpt" (take 6 (drop 7 tr))
             (snapshot 13%nat) "ckpt" (drop 14 tr)).
    vm_compute. reflexivity.
  - destruct (H2 (take 13 tr) (snapshot 13%nat) "ckpt" (drop 14 tr))
      as [Hp Hd]; [vm_compute; reflexivity|].
    split; [exact Hp | apply Hd; reflexivity].
Defined.

(** ** What a run that returns has collected *)

Lemma for_issues_returned W repo_name path n items :
  ∀ i s s',
    for_issues W repo_name path n i items s = (Return tt, s') →
    ∃ tr,
      trace s' = trace s ++ tr ∧
      all_issues s' = all_issues s
        ++ map (record_of repo_name)
             (List.filter has_comments (yielded items)) ∧
      count is_sleep tr
      = length (List.filter is_throttled (yielded items)) ∧
      repo_requests tr = [] ∧ clients tr = [] ∧
      repo_calls s' = repo_calls s ∧
      length (yielded items)
      = (length (List.filter has_comments (yielded items))
         + length (List.filter is_throttled (yielded items)))%nat.
Proof.
  induction items as [|[issue | e] rest IH]; intros i s s' Hr.
  - injection Hr as <-. exists []. simpl. rewrite !app_nil_r. repeat split.
  - rewrite for_issues_yield in Hr. simpl yielded. simpl List.filter.
    destruct (Issue.get_comments issue) as [bodies | e] eqn:H.
    + assert (has_comments issue = true) as ->
        by (unfold has_comments; rewrite H; reflexivity).
      assert (is_throttled issue = false) as ->
        by (unfold is_throttled; rewrite H; reflexivity).
      rewrite (process_issue_ok _ _ _ _ _ _ _ _ H) in Hr.
      destruct (IH _ _ _ Hr) as (tr & T & A & C & Q1 & Q2 & R & L).
      exists ([EGetComments repo_name (Issue.number issue);
               EAppend (record_of repo_name issue)] ++ tr).
      rewrite T, A, R. simpl. rewrite <- !app_assoc. simpl.
      repeat split; auto.
    + destruct (is_rate_limit e) eqn:He.
      * destruct e; try discriminate He.
        assert (has_comments issue = false) as ->
          by (unfold has_comments; rewrite H; reflexivity).
        assert (is_throttled issue = true) as ->
          by (unfold is_throttled; rewrite H; reflexivity).
        rewrite (process_issue_throttled _ _ _ _ _ _ _ H) in Hr.
        destruct (handled_cases W path i n repo_name issue s)
          as [[e E] | [E | [w E]]]; rewrite E in Hr; try discriminate Hr.
        destruct (IH _ _ _ Hr) as (tr & T & A & C & Q1 & Q2 & R & L).
        exists ([EGetComments repo_name (Issue.number issue);
                 ELogRateLimit i n; ESaveToDisk (all_issues s) path;
                 EGetRateLimit; ESleep w] ++ tr).
        rewrite T, A, R. simpl. rewrite <- !app_assoc. simpl.
        repeat split; auto. lia.
      * rewrite (process_issue_error _ _ _ _ _ _ _ _ H He) in Hr.
        discriminate Hr.
  - discriminate Hr.
Qed.

Lemma process_repo_returned W gh_org gh_token path repo_name s s' :
  process_repo W gh_org gh_token path repo_name s = (Return tt, s') →
  let issues := issues_of (get_repo W (repo_calls s)
                             (full_name gh_org repo_name)) in
  ∃ tr,
    trace s' = trace s ++ tr ∧
    all_issues s' = all_issues s
      ++ map (record_of repo_name) (List.filter has_comments issues) ∧
    count is_sleep tr = length (List.filter is_throttled issues) ∧
    repo_requests tr = [(gh_token, full_name gh_org repo_name)] ∧
    clients tr = [gh_token] ∧
    repo_calls s' = S (repo_calls s) ∧
    length issues
    = (length (List.filter has_comments issues)
       + length (List.filter is_throttled issues))%nat.
Proof.
  intros Hr.
  destruct (Auth_Token W gh_token) as [e|] eqn:Ha.
  { rewrite (process_repo_rejected _ _ _ _ _ _ _ Ha) in Hr. discriminate Hr. }
  destruct (get_repo W (repo_calls s) (full_name gh_org repo_name))
    as [e | n items] eqn:Hg.
  { rewrite (process_repo_raise _ _ _ _ _ _ _ Ha Hg) in Hr. discriminate Hr. }
  rewrite (process_repo_issues _ _ _ _ _ _ _ _ Ha Hg) in Hr.
  destruct (for_issues_returned _ _ _ _ _ _ _ _ Hr)
    as (tr & T & A & C & Q1 & Q2 & R & L).
  exists ([EAuth gh_token; EGetRepo gh_token (full_name gh_org repo_name)]
          ++ tr).
  simpl in *. rewrite T, A, R, Q1, Q2, <- !app_assoc. repeat split; auto.
Qed.

Lemma for_each_repo_returned W gh_org gh_token path repos :
  ∀ s s',
    for_each (process_repo W gh_org gh_token path) repos s = (Return tt, s') →
    ∃ tr,
      trace s' = trace s ++ tr ∧
      all_issues s' = all_issues s
        ++ kept_records W gh_org (repo_calls s) repos ∧
      count is_sleep tr = throttled_count W gh_org (repo_calls s) repos ∧
      repo_requests tr
      = map (λ name, (gh_token, full_name gh_org name)) repos ∧
      clients tr = map (λ _, gh_token) repos ∧
      total_issue_count W gh_org (repo_calls s) repos
      = (length (kept_records W gh_org (repo_calls s) repos)
         + throttled_count W gh_org (repo_calls s) repos)%nat.
Proof.
  induction repos as [|name rest IH]; intros s s' Hr.
  - injection Hr as <-. exists []. simpl. rewrite !app_nil_r. repeat split.
  - simpl in Hr. run.
    destruct (process_repo W gh_org gh_token path name s)
      as [[[]|e] s1] eqn:E1; [|discriminate Hr].
    destruct (process_repo_returned _ _ _ _ _ _ _ E1)
      as (tr1 & T1 & A1 & C1 & Q1 & K1 & R1 & L1).
    destruct (IH _ _ Hr) as (tr2 & T2 & A2 & C2 & Q2 & K2 & L2).
    rewrite R1 in A2, C2, L2.
    exists (tr1 ++ tr2).
    assert (∀ t1 t2, repo_requests (t1 ++ t2)
                     = repo_requests t1 ++ repo_requests t2) as Happ.
    { intros t1 t2. induction t1 as [|e t1 IHt]; simpl; [reflexivity|].
      destruct e; simpl; rewrite ?IHt; reflexivity. }
    assert (∀ t1 t2, clients (t1 ++ t2) = clients t1 ++ clients t2) as Kapp.
    { intros t1 t2. induction t1 as [|e t1 IHt]; simpl; [reflexivity|].
      destruct e; simpl; rewrite ?IHt; reflexivity. }
    rewrite T2, T1, A2, A1, count_app, C1, C2, Happ, Kapp, Q1, Q2, K1, K2.
    simpl. rewrite <- !app_assoc, length_app, length_map.
    unfold issue_count. rewrite L1, L2.
    repeat split; auto. lia.
Qed.

(** X5: when [extract_gh_repo_issues] returns, with or without rate-limit
    waits on the way, the collection is exactly the records of the issues
    whose comments were fetched, one group per repository in the order
    given, each in the order yielded; the run slept once for each issue
    whose comment fetch was throttled, and those issues are the only ones
    without a record: records and waits add up to the number of issues. *)
Theorem returned_collection_is_what_was_fetched W gh_org repos gh_token path
    s ds s' :
  extract_gh_repo_issues W gh_org (Some repos) gh_token path s
  = (Return ds, s') →
  ds = kept_records W gh_org (repo_calls s) repos ∧
  count is_sleep (new_events s s')
  = throttled_count W gh_org (repo_calls s) repos ∧
  total_issue_count W gh_org (repo_calls s) repos
  = (length ds + count is_sleep (new_events s s'))%nat.
Proof.
  intros Hr. rewrite extract_unfold in Hr.
  destruct (for_each _ repos _) as [[[]|e] s1] eqn:E; [|discriminate Hr].
  injection Hr as <- <-.
  destruct (for_each_repo_returned _ _ _ _ _ _ _ E)
    as (tr & T & A & C & _ & _ & L).
  simpl in T, A, C, L. rewrite (new_events_app s s1 tr T), A, C.
  repeat split. exact L.
Qed.

Lemma returned_collection_is_what_was_fetched_witness :
  ∃ ds s',
    extract_gh_repo_issues (scripted [throttled_twice; two_issues] 1000 880)
      (Some "acme") (Some ["widgets"; "gadgets"]) (Some "token") "ckpt"
      initial_store = (Return ds, s') ∧
    map IssueData.number ds = [1; 3; 5; 1; 2]%Z ∧
    map IssueData.repo ds
    = ["widgets"; "widgets"; "widgets"; "gadgets"; "gadgets"] ∧
    count is_sleep (new_events initial_store s') = 2%nat ∧
    total_issue_count (scripted [throttled_twice; two_issues] 1000 880)
      (Some "acme") 0 ["widgets"; "gadgets"] = 7%nat.
Proof.
  eexists. eexists. split; [vm_compute; reflexivity|].
  match goal with
  | |- context [new_events initial_store ?s'] =>
      destruct (returned_collection_is_what_was_fetched
                  (scripted [throttled_twice; two_issues] 1000 880)
                  (Some "acme") ["widgets"; "gadgets"] (Some "token") "ckpt"
                  initial_store
                  (kept_records
                     (scripted [throttled_twice; two_issues] 1000 880)
                     (Some "acme") 0 ["widgets"; "gadgets"]) s' eq_refl)
        as (_ & C & L)
  end.
  split; [reflexivity|]. split; [reflexivity|].
  split; [rewrite C; reflexivity | reflexivity].
Defined.

(** ** Clients and repository requests *)

Lemma repo_requests_app (tr1 tr2 : list event) :
  repo_requests (tr1 ++ tr2) = repo_requests tr1 ++ repo_requests tr2.
Proof.
  induction tr1 as [|e tr1 IH]; simpl; [reflexivity|].
  destruct e; simpl; rewrite ?IH; reflexivity.
Qed.

Lemma clients_app (tr1 tr2 : list event) :
  clients (tr1 ++ tr2) = clients tr1 ++ clients tr2.
Proof.
  induction tr1 as [|e tr1 IH]; simpl; [reflexivity|].
  destruct e; simpl; rewrite ?IH; reflexivity.
Qed.

Lemma for_issues_sends_no_repo_request W repo_name path n items i s :
  ∃ tr,
    trace (snd (for_issues W repo_name path n i items s)) = trace s ++ tr ∧
    repo_requests tr = [] ∧ clients tr = [].
Proof.
  apply (for_issues_composed path
           (λ tr, repo_requests tr = [] ∧ clients tr = []));
    try (intros; split; reflexivity).
  intros tr1 tr2 [R1 K1] [R2 K2].
  rewrite repo_requests_app, clients_app, R1, R2, K1, K2. split; reflexivity.
Qed.

Lemma process_repo_requests W gh_org gh_token path repo_name s :
  ∃ tr,
    trace (snd (process_repo W gh_org gh_token path repo_name s))
    = trace s ++ tr ∧
    clients tr = [gh_token] ∧
    repo_requests tr `prefix_of` [(gh_token, full_name gh_org repo_name)].
Proof.
  destruct (Auth_Token W gh_token) as [e|] eqn:Ha.
  - rewrite (process_repo_rejected _ _ _ _ _ _ _ Ha).
    exists [EAuth gh_token]. simpl.
    split; [reflexivity|]. split; [reflexivity | apply prefix_nil].
  - destruct (get_repo W (repo_calls s) (full_name gh_org repo_name))
      as [e | n items] eqn:Hr.
    + rewrite (process_repo_raise _ _ _ _ _ _ _ Ha Hr).
      exists [EAuth gh_token; EGetRepo gh_token (full_name gh_org repo_name)].
      unfold requested; simpl. rewrite <- app_assoc.
      split; [reflexivity|]. split; reflexivity.
    + rewrite (process_repo_issues _ _ _ _ _ _ _ _ Ha Hr).
      destruct (for_issues_sends_no_repo_request W repo_name path n items 0
                  (requested gh_org gh_token repo_name s)) as (tr & T & R & K).
      exists ([EAuth gh_token; EGetRepo gh_token (full_name gh_org repo_name)]
              ++ tr).
      rewrite T. unfold requested; simpl. rewrite <- !app_assoc, R, K.
      split; [reflexivity|]. split; reflexivity.
Qed.

Lemma for_each_repo_requests W gh_org gh_token path repos :
  ∀ s, ∃ tr,
    trace (snd (for_each (process_repo W gh_org gh_token path) repos s))
    = trace s ++ tr ∧
    clients tr `prefix_of` map (λ _, gh_token) repos ∧
    repo_requests tr
    `prefix_of` map (λ name, (gh_token, full_name gh_org name)) repos.
Proof.
  induction repos as [|name rest IH]; intros s; simpl.
  - exists []. rewrite app_nil_r. repeat split; apply prefix_nil.
  - run.
    destruct (process_repo W gh_org gh_token path name s)
      as [[[]|e] s1] eqn:E1.
    + destruct (process_repo_returned _ _ _ _ _ _ _ E1)
        as (tr1 & T1 & _ & _ & Q1 & K1 & _).
      destruct (IH s1) as (tr2 & T2 & K2 & Q2).
      exists (tr1 ++ tr2).
      rewrite T2, T1, app_assoc, clients_app, repo_requests_app, Q1, K1.
      split; [reflexivity|].
      split; apply (prefix_app [_]); assumption.
    + destruct (process_repo_requests W gh_org gh_token path name s)
        as (tr1 & T1 & K1 & Q1).
      rewrite E1 in T1. simpl in T1.
      exists tr1. rewrite K1. split; [exact T1|]. split.
      * exists (map (λ _, gh_token) rest). reflexivity.
      * etransitivity; [exact Q1|].
        exists (map (λ name, (gh_token, full_name gh_org name)) rest).
        reflexivity.
Qed.

(** X3: a client is built anew, with the token as given, for each
    repository, and each repository is requested once, as [org/name] and in
    the order of the list: whatever the outcome, the clients built and the
    requests sent are a beginning of these lists, and all of them when the
    function returns. *)
Theorem one_client_and_request_per_repository W gh_org repos gh_token path s :
  let r := extract_gh_repo_issues W gh_org (Some repos) gh_token path s in
  let tr := new_events s (snd r) in
  clients tr `prefix_of` map (λ _, gh_token) repos ∧
  repo_requests tr
  `prefix_of` map (λ name, (gh_token, py_str gh_org +:+ "/" +:+ name)) repos ∧
  (∀ ds, fst r = Return ds →
         clients tr = map (λ _, gh_token) repos ∧
         repo_requests tr
         = map (λ name, (gh_token, py_str gh_org +:+ "/" +:+ name)) repos).
Proof.
  intros r tr. subst r tr. rewrite extract_unfold.
  destruct (for_each_repo_requests W gh_org gh_token path repos
              (set_all_issues [] s)) as (tr & T & K & Q).
  destruct (for_each _ repos _) as [[[]|e] s1] eqn:E; simpl in *;
    rewrite (new_events_app s s1 tr T).
  - split; [exact K|]. split; [exact Q|]. intros ds _.
    destruct (for_each_repo_returned _ _ _ _ _ _ _ E)
      as (tr' & T' & _ & _ & Q' & K' & _).
    simpl in T'. rewrite T in T'. apply app_inv_head in T'. subst tr'.
    split; assumption.
  - split; [exact K|]. split; [exact Q|]. discriminate.
Qed.

Lemma one_client_and_request_per_repository_witness :
  let r := extract_gh_repo_issues (scripted [two_issues; one_issue] 0 0)
             None (Some ["widgets"; "gadgets"]) (Some "token") "ckpt"
             initial_store in
  clients (new_events initial_store (snd r)) = [Some "token"; Some "token"] ∧
  repo_requests (new_events initial_store (snd r))
  = [(Some "token", "None/widgets"); (Some "token", "None/gadgets")].
Proof.
  intros r.
  destruct (one_client_and_request_per_repository
              (scripted [two_issues; one_issue] 0 0) None
              ["widgets"; "gadgets"] (Some "token") "ckpt" initial_store)
    as (_ & _ & H).
  apply (H (kept_records (scripted [two_issues; one_issue] 0 0) None 0
              ["widgets"; "gadgets"])).
  reflexivity.
Defined.

(** ** The disk is written, never read *)

Ltac same_but_disk H :=
  unfold without_disk, set_disk in H; simpl in H;
  injection H as ? ? ? ?;
  unfold without_disk, set_disk, collected, asked, checkpointed, requested,
    log, set_all_issues, set_disk, next_wait, next_repo_call; simpl;
  congruence.

Lemma process_issue_same_but_disk W repo_name path n i issue s1 s2 :
  without_disk s1 = without_disk s2 →
  fst (process_issue W repo_name path n i issue s1)
  = fst (process_issue W repo_name path n i issue s2) ∧
  without_disk (snd (process_issue W repo_name path n i issue s1))
  = without_disk (snd (process_issue W repo_name path n i issue s2)).
Proof.
  intros H.
  destruct (Issue.get_comments issue) as [bodies | e] eqn:Hc.
  - rewrite !(process_issue_ok _ _ _ _ _ _ _ _ Hc). simpl.
    split; [reflexivity | same_but_disk H].
  - destruct (is_rate_limit e) eqn:He.
    + destruct e; try discriminate He.
      rewrite !(process_issue_throttled _ _ _ _ _ _ _ Hc).
      assert (waits s1 = waits s2) as Hw
        by (apply (f_equal waits) in H; exact H).
      unfold handled. rewrite Hw.
      destruct (get_rate_limit W (waits s2)) as [reset | e]; simpl.
      * unfold time_sleep, emit.
        destruct (Qle_bool 0 _); simpl;
          (split; [reflexivity | same_but_disk H]).
      * split; [reflexivity | same_but_disk H].
    + rewrite !(process_issue_error _ _ _ _ _ _ _ _ Hc He). simpl.
      split; [reflexivity | same_but_disk H].
Qed.

Lemma for_issues_same_but_disk W repo_name path n items :
  ∀ i s1 s2,
    without_disk s1 = without_disk s2 →
    fst (for_issues W repo_name path n i items s1)
    = fst (for_issues W repo_name path n i items s2) ∧
    without_disk (snd (for_issues W repo_name path n i items s1))
    = without_disk (snd (for_issues W repo_name path n i items s2)).
Proof.
  induction items as [|[issue | e] rest IH]; intros i s1 s2 H.
  - split; [reflexivity | exact H].
  - rewrite !for_issues_yield.
    destruct (process_issue_same_but_disk W repo_name path n i issue s1 s2 H)
      as [Hr Hs].
    destruct (process_issue W repo_name path n i issue s1) as [[[]|e1] t1];
      destruct (process_issue W repo_name path n i issue s2) as [[[]|e2] t2];
      simpl in Hr, Hs; try discriminate Hr.
    + apply IH. exact Hs.
    + split; [exact Hr | exact Hs].
  - split; [reflexivity | exact H].
Qed.

Lemma process_repo_same_but_disk W gh_org gh_token path repo_name s1 s2 :
  without_disk s1 = without_disk s2 →
  fst (process_repo W gh_org gh_token path repo_name s1)
  = fst (process_repo W gh_org gh_token path repo_name s2) ∧
  without_disk (snd (process_repo W gh_org gh_token path repo_name s1))
  = without_disk (snd (process_repo W gh_org gh_token path repo_name s2)).
Proof.
  intros H.
  assert (repo_calls s1 = repo_calls s2) as Hk
    by (apply (f_equal repo_calls) in H; exact H).
  destruct (Auth_Token W gh_token) as [e|] eqn:Ha.
  - rewrite !(process_repo_rejected _ _ _ _ _ _ _ Ha). simpl.
    split; [reflexivity | same_but_disk H].
  - destruct (get_repo W (repo_calls s2) (full_name gh_org repo_name))
      as [e | n items] eqn:Hr.
    + rewrite (process_repo_raise _ _ _ _ _ _ s2 Ha Hr).
      rewrite <- Hk in Hr. rewrite (process_repo_raise _ _ _ _ _ _ s1 Ha Hr).
      simpl. split; [reflexivity | same_but_disk H].
    + rewrite (process_repo_issues _ _ _ _ _ _ _ s2 Ha Hr).
      rewrite <- Hk in Hr.
      rewrite (process_repo_issues _ _ _ _ _ _ _ s1 Ha Hr).
      apply for_issues_same_but_disk. same_but_disk H.
Qed.

Lemma for_each_repo_same_but_disk W gh_org gh_token path repos :
  ∀ s1 s2,
    without_disk s1 = without_disk s2 →
    fst (for_each (process_repo W gh_org gh_token path) repos s1)
    = fst (for_each (process_repo W gh_org gh_token path) repos s2) ∧
    without_disk (snd (for_each (process_repo W gh_org gh_token path) repos s1))
    = without_disk
        (snd (for_each (process_repo W gh_org gh_token path) repos s2)).
Proof.
  induction repos as [|name rest IH]; intros s1 s2 H; simpl.
  - split; [reflexivity | exact H].
  - run.
    destruct (process_repo_same_but_disk W gh_org gh_token path name s1 s2 H)
      as [Hr Hs].
    destruct (process_repo W gh_org gh_token path name s1) as [[[]|e1] t1];
      destruct (process_repo W gh_org gh_token path name s2) as [[[]|e2] t2];
      simpl in Hr, Hs; try discriminate Hr.
    + apply IH. exact Hs.
    + split; [exact Hr | exact Hs].
Qed.

(** X7: the disk is only written. What the checkpoint path, or any other,
    holds when the run starts has no effect on the outcome of the
    extraction, on the collection it returns, on the events of the run or on
    what is pushed by the entry point; neither has what [all_issues] held
    before the call. *)
Theorem checkpoint_is_never_read W gh_org gh_repos token path s d :
  let extract := extract_gh_repo_issues W gh_org gh_repos token path in
  fst (extract (set_disk d s)) = fst (extract s) ∧
  trace (snd (extract (set_disk d s))) = trace (snd (extract s)) ∧
  all_issues (snd (extract (set_disk d s))) = all_issues (snd (extract s)) ∧
  (∀ l, extract (set_all_issues l s) = extract s) ∧
  (∀ args,
     fst (main W args (set_disk d s)) = fst (main W args s) ∧
     trace (snd (main W args (set_disk d s))) = trace (snd (main W args s))).
Proof.
  assert (∀ org0 repos0 token0 path0,
            fst (extract_gh_repo_issues W org0 repos0 token0 path0
                   (set_disk d s))
            = fst (extract_gh_repo_issues W org0 repos0 token0 path0 s) ∧
            without_disk
              (snd (extract_gh_repo_issues W org0 repos0 token0 path0
                      (set_disk d s)))
            = without_disk
                (snd (extract_gh_repo_issues W org0 repos0 token0 path0 s)))
    as Hx.
  { intros org0 [repos0|] token0 path0.
    - rewrite !extract_unfold.
      destruct (for_each_repo_same_but_disk W org0 token0 path0 repos0
                  (set_all_issues [] (set_disk d s)) (set_all_issues [] s)
                  eq_refl) as [Hr Hs].
      destruct (for_each _ repos0 (set_all_issues [] (set_disk d s)))
        as [[[]|e1] t1];
        destruct (for_each _ repos0 (set_all_issues [] s)) as [[[]|e2] t2];
        simpl in Hr, Hs; try discriminate Hr; simpl.
      + split; [|exact Hs].
        apply (f_equal all_issues) in Hs. simpl in Hs. rewrite Hs. reflexivity.
      + split; [|exact Hs]. injection Hr as ->. reflexivity.
    - split; reflexivity. }
  intros extract. subst extract.
  destruct (Hx gh_org gh_repos token path) as [Hr Hs].
  split; [exact Hr|].
  split; [apply (f_equal trace) in Hs; exact Hs|].
  split; [apply (f_equal all_issues) in Hs; exact Hs|].
  split.
  - intros l. destruct gh_repos as [repos0|]; [|reflexivity].
    rewrite !extract_unfold. reflexivity.
  - intros args. rewrite !main_unfold.
    destruct (Hx (org args) (repos args) (gh_token args) "./hf_repo_issues")
      as [Hr' Hs'].
    destruct (extract_gh_repo_issues W (org args) (repos args) (gh_token args)
                "./hf_repo_issues" (set_disk d s)) as [[ds1|e1] t1];
      destruct (extract_gh_repo_issues W (org args) (repos args)
                  (gh_token args) "./hf_repo_issues" s) as [[ds2|e2] t2];
      simpl in Hr', Hs'; try discriminate Hr'; simpl.
    + apply (f_equal trace) in Hs'. simpl in Hs'.
      injection Hr' as ->. rewrite Hs'. split; reflexivity.
    + apply (f_equal trace) in Hs'. split; [|exact Hs'].
      injection Hr' as ->. reflexivity.
Qed.

(** ** The two string encodings of a record *)

Lemma string_app_assoc (a b c : string) : (a +:+ b) +:+ c = a +:+ (b +:+ c).
Proof.
  induction a as [|x a IH]; [reflexivity|].
  change (String x ((a +:+ b) +:+ c) = String x (a +:+ (b +:+ c))).
  rewrite IH. reflexivity.
Qed.

Lemma join_cons (sep x : string) (l : list string) :
  l ≠ [] → join sep (x :: l) = x +:+ sep +:+ join sep l.
Proof. destruct l; [congruence | reflexivity]. Qed.

Lemma join_app (sep : string) (l1 l2 : list string) :
  l1 ≠ [] → l2 ≠ [] →
  join sep (l1 ++ l2) = join sep l1 +:+ sep +:+ join sep l2.
Proof.
  intros H1 H2. induction l1 as [|x l1 IH]; [congruence|].
  destruct l1 as [|y l1].
  - simpl app. rewrite (join_cons sep x l2 H2). reflexivity.
  - change ((x :: y :: l1) ++ l2) with (x :: (y :: l1) ++ l2).
    rewrite join_cons by discriminate.
    rewrite IH by discriminate.
    rewrite (join_cons sep x (y :: l1)) by discriminate.
    rewrite !string_app_assoc. reflexivity.
Qed.

(** X8: joining is compositional, and the joined [comments] field does not
    always tell the comments apart: two adjacent comments read the same as
    one comment holding their bodies around the delimiter, and no comment
    reads the same as one empty comment. *)
Theorem joined_comments_can_coincide (before after : list string)
    (a b : string) :
  join delimiter (before ++ [a; b] ++ after)
  = join delimiter (before ++ [a +:+ delimiter +:+ b] ++ after) ∧
  join delimiter [] = join delimiter [""] ∧
  (∀ repo_name issue,
     IssueData.comments
       (make_issue_data repo_name issue
          (join delimiter (before ++ [a; b] ++ after)))
     = IssueData.comments
         (make_issue_data repo_name issue
            (join delimiter (before ++ [a +:+ delimiter +:+ b] ++ after)))) ∧
  (before ≠ [] → after ≠ [] →
   join delimiter (before ++ after)
   = join delimiter before +:+ "<|||||>" +:+ join delimiter after).
Proof.
  assert (join delimiter ([a; b] ++ after)
          = join delimiter ([a +:+ delimiter +:+ b] ++ after)) as Hmid.
  { destruct after as [|y after]; [reflexivity|].
    simpl app.
    rewrite (join_cons delimiter a), (join_cons delimiter b) by discriminate.
    rewrite (join_cons delimiter (a +:+ delimiter +:+ b)) by discriminate.
    rewrite !string_app_assoc. reflexivity. }
  assert (join delimiter (before ++ [a; b] ++ after)
          = join delimiter (before ++ [a +:+ delimiter +:+ b] ++ after)) as H.
  { destruct before as [|x before]; [exact Hmid|].
    rewrite !(join_app delimiter (x :: before)) by discriminate.
    rewrite Hmid. reflexivity. }
  split; [exact H|]. split; [reflexivity|]. split.
  - intros repo_name issue. simpl. exact H.
  - apply join_app.
Qed.

Lemma joined_comments_can_coincide_witness :
  join delimiter (["x"] ++ ["y"]) = "x<|||||>y" ∧
  join delimiter ([] ++ ["a"; "b"] ++ ["c"])
  = join delimiter ([] ++ ["a<|||||>b"] ++ ["c"]).
Proof.
  split.
  - destruct (joined_comments_can_coincide ["x"] ["y"] "" "")
      as (_ & _ & _ & H).
    rewrite H by discriminate. reflexivity.
  - apply (joined_comments_can_coincide [] ["c"] "a" "b").
Defined.

Lemma digit_inj (a b : nat) : digit a = digit b → a mod 10 = b mod 10.
Proof.
  unfold digit. intros H. apply (f_equal nat_of_ascii) in H.
  pose proof (Nat.mod_upper_bound a 10).
  pose proof (Nat.mod_upper_bound b 10).
  rewrite !nat_ascii_embedding in H by lia. lia.
Qed.

Lemma pad2_inj (n m : nat) :
  (n < 100)%nat → (m < 100)%nat → pad2 n = pad2 m → n = m.
Proof.
  intros Hn Hm H. unfold pad2 in H. injection H as H1 H0.
  apply digit_inj in H1, H0.
  pose proof (Nat.div_mod_eq n 10). pose proof (Nat.div_mod_eq m 10).
  assert (n / 10 < 10)%nat by (apply Nat.Div0.div_lt_upper_bound; lia).
  assert (m / 10 < 10)%nat by (apply Nat.Div0.div_lt_upper_bound; lia).
  rewrite (Nat.mod_small (n / 10)), (Nat.mod_small (m / 10)) in H1 by lia.
  lia.
Qed.

Lemma pad4_inj (n m : nat) :
  (n < 100 * 100)%nat → (m < 100 * 100)%nat → pad4 n = pad4 m → n = m.
Proof.
  intros Hn Hm H. unfold pad4, pad2 in H. injection H as H3 H2 H1 H0.
  apply digit_inj in H3, H2, H1, H0.
  assert (n / 1000 < 10)%nat by (apply Nat.Div0.div_lt_upper_bound; lia).
  assert (m / 1000 < 10)%nat by (apply Nat.Div0.div_lt_upper_bound; lia).
  rewrite (Nat.mod_small (n / 1000)), (Nat.mod_small (m / 1000)) in H3 by lia.
  pose proof (Nat.div_mod_eq n 10). pose proof (Nat.div_mod_eq m 10).
  pose proof (Nat.div_mod_eq (n / 10) 10).
  pose proof (Nat.div_mod_eq (m / 10) 10).
  pose proof (Nat.div_mod_eq (n / 10 / 10) 10).
  pose proof (Nat.div_mod_eq (m / 10 / 10) 10).
  rewrite !Nat.Div0.div_div in *.
  change (10 * 10)%nat with 100%nat in *.
  change (100 * 10)%nat with 1000%nat in *.
  assert ((n / 10) mod 10 = (m / 10) mod 10) as H1' by exact H1.
  assert ((n / 100) mod 10 = (m / 100) mod 10) as H2' by exact H2.
  lia.
Qed.

Lemma String_inj (c1 c2 : ascii) (s1 s2 : string) :
  String c1 s1 = String c2 s2 → c1 = c2 ∧ s1 = s2.
Proof. intros H. injection H as -> ->. split; reflexivity. Qed.

Lemma strftime_inj (d1 d2 : datetime) :
  valid_datetime d1 → valid_datetime d2 →
  strftime d1 = strftime d2 → d1 = d2.
Proof.
  intros (Y1 & M1 & D1 & h1 & m1 & s1) (Y2 & M2 & D2 & h2 & m2 & s2) H.
  destruct d1 as [y1 mo1 da1 ho1 mi1 se1], d2 as [y2 mo2 da2 ho2 mi2 se2].
  cbv [year month day hour minute second] in Y1, M1, D1, h1, m1, s1,
    Y2, M2, D2, h2, m2, s2.
  cbv [strftime pad4 pad2 String.append year month day hour minute second]
    in H.
  repeat (apply String_inj in H as [? H]).
  assert (pad2 mo1 = pad2 mo2) as Emo by (unfold pad2; congruence).
  assert (pad2 da1 = pad2 da2) as Eda by (unfold pad2; congruence).
  assert (pad4 y1 = pad4 y2) as Ey by (unfold pad4, pad2; congruence).
  assert (pad2 ho1 = pad2 ho2) as Eho by (unfold pad2; congruence).
  assert (pad2 mi1 = pad2 mi2) as Emi by (unfold pad2; congruence).
  assert (pad2 se1 = pad2 se2) as Ese by (unfold pad2; congruence).
  apply pad2_inj in Emo, Eda, Eho, Emi, Ese; try lia.
  apply pad4_inj in Ey; try lia.
  congruence.
Qed.

(** X9: the [created_at] string of a record determines the creation time
    of its issue to the second: when the records of two issues, both created
    in the years 1000 to 9999, carry the same string, the issues were
    created at the same date; the [closed_at] string of either record is
    that string too, and it has 19 characters. *)
Theorem created_at_determines_the_time name1 name2 i1 i2 c1 c2 :
  valid_datetime (Issue.created_at i1) →
  valid_datetime (Issue.created_at i2) →
  IssueData.created_at (make_issue_data name1 i1 c1)
  = IssueData.created_at (make_issue_data name2 i2 c2) →
  Issue.created_at i1 = Issue.created_at i2 ∧
  IssueData.closed_at (make_issue_data name1 i1 c1)
  = IssueData.closed_at (make_issue_data name2 i2 c2) ∧
  String.length (IssueData.created_at (make_issue_data name1 i1 c1)) = 19%nat.
Proof.
  intros V1 V2 H. simpl in H.
  split; [apply strftime_inj; assumption|].
  split; [exact H | reflexivity].
Qed.

Lemma created_at_determines_the_time_witness :
  Issue.created_at (an_issue 1 open None (CommentsOk []))
  = Issue.created_at
      (an_issue 2 closed (Some (mk_datetime 2024 2 29 23 59 59))
         (CommentsOk ["a"])) ∧
  String.length
    (IssueData.created_at
       (make_issue_data "widgets" (an_issue 1 open None (CommentsOk [])) ""))
  = 19%nat.
Proof.
  assert (valid_datetime (mk_datetime 2023 7 4 9 5 0)) as V.
  { unfold valid_datetime. cbv [year month day hour minute second]. lia. }
  destruct (created_at_determines_the_time "widgets" "gadgets"
              (an_issue 1 open None (CommentsOk []))
              (an_issue 2 closed (Some (mk_datetime 2024 2 29 23 59 59))
                 (CommentsOk ["a"]))
              "" "a" V V eq_refl) as (E & _ & L).
  split; [exact E | exact L].
Defined.

(** ** Runs without a throttled comment fetch *)

Lemma for_issues_never_saves W repo_name path n items :
  (∀ issue, issue ∈ yielded items → is_throttled issue = false) →
  ∀ i s, ∃ tr,
    trace (snd (for_issues W repo_name path n i items s)) = trace s ++ tr ∧
    count is_save tr = 0%nat ∧ count is_sleep tr = 0%nat.
Proof.
  induction items as [|[issue | e] rest IH]; intros Hn i s.
  - exists []. simpl. rewrite app_nil_r. auto.
  - rewrite for_issues_yield.
    assert (is_throttled issue = false) as Ht
      by (apply Hn; simpl; apply elem_of_cons; left; reflexivity).
    assert (∀ issue', issue' ∈ yielded rest → is_throttled issue' = false)
      as Hrest
      by (intros issue' Hin; apply Hn; simpl; apply elem_of_cons; right;
          exact Hin).
    unfold is_throttled in Ht.
    destruct (Issue.get_comments issue) as [bodies | e] eqn:H.
    + rewrite (process_issue_ok _ _ _ _ _ _ _ _ H).
      destruct (IH Hrest (S i) (collected repo_name issue s))
        as (tr & T & C1 & C2).
      exists ([EGetComments repo_name (Issue.number issue);
               EAppend (record_of repo_name issue)] ++ tr).
      rewrite T. simpl. rewrite <- !app_assoc. auto.
    + rewrite (process_issue_error _ _ _ _ _ _ _ _ H Ht).
      exists [EGetComments repo_name (Issue.number issue)]. auto.
  - exists []. simpl. rewrite app_nil_r. auto.
Qed.

(** X10: snapshots are written for throttled comment fetches only. In a
    world where no comment fetch is throttled, a run of the entry point,
    however it ends (on return, on any error, on a rate-limit signal of the
    issue listing or of a repository request), saves nothing, never sleeps,
    and leaves the disk as it was. *)
Theorem no_snapshot_without_throttled_comments W args s :
  comments_never_throttled W →
  let s' := snd (main W args s) in
  count is_save (new_events s s') = 0%nat ∧
  count is_sleep (new_events s s') = 0%nat ∧
  disk s' = disk s.
Proof.
  intros Hn.
  assert (∀ repos0 s0, ∃ tr,
            trace (snd (for_each (process_repo W (org args) (gh_token args)
                                    "./hf_repo_issues") repos0 s0))
            = trace s0 ++ tr ∧
            count is_save tr = 0%nat ∧ count is_sleep tr = 0%nat) as Hloop.
  { induction repos0 as [|name rest IH]; intros s0; simpl.
    - exists []. rewrite app_nil_r. auto.
    - run.
      assert (∃ tr1,
                trace (snd (process_repo W (org args) (gh_token args)
                              "./hf_repo_issues" name s0)) = trace s0 ++ tr1 ∧
                count is_save tr1 = 0%nat ∧ count is_sleep tr1 = 0%nat) as H1.
      { destruct (Auth_Token W (gh_token args)) as [e|] eqn:Ha.
        - rewrite (process_repo_rejected _ _ _ _ _ _ _ Ha).
          exists [EAuth (gh_token args)]. auto.
        - destruct (get_repo W (repo_calls s0) (full_name (org args) name))
            as [e | n items] eqn:Hr.
          + rewrite (process_repo_raise _ _ _ _ _ _ _ Ha Hr).
            exists [EAuth (gh_token args);
                    EGetRepo (gh_token args) (full_name (org args) name)].
            unfold requested; simpl. rewrite <- app_assoc. auto.
          + rewrite (process_repo_issues _ _ _ _ _ _ _ _ Ha Hr).
            destruct (for_issues_never_saves W name "./hf_repo_issues" n items)
              with (i := 0%nat)
                   (s := requested (org args) (gh_token args) name s0)
              as (tr & T & C1 & C2).
            { intros issue Hin.
              apply (Hn (repo_calls s0) (full_name (org args) name)).
              rewrite Hr. exact Hin. }
            exists ([EAuth (gh_token args);
                     EGetRepo (gh_token args) (full_name (org args) name)]
                    ++ tr).
            rewrite T. unfold requested; simpl. rewrite <- !app_assoc. auto. }
      destruct H1 as (tr1 & T1 & S1 & L1).
      destruct (process_repo W (org args) (gh_token args) "./hf_repo_issues"
                  name s0) as [[[]|e] s1]; simpl in T1.
      + destruct (IH s1) as (tr2 & T2 & S2 & L2).
        exists (tr1 ++ tr2). rewrite T2, T1, app_assoc, !count_app, S1, S2, L1, L2.
        auto.
      + exists tr1. auto. }
  assert (∃ tr, trace (snd (main W args s)) = trace s ++ tr ∧
                count is_save tr = 0%nat ∧ count is_sleep tr = 0%nat ∧
                disk (snd (main W args s))
                = disk (snd (extract_gh_repo_issues W (org args) (repos args)
                               (gh_token args) "./hf_repo_issues" s)) ∧
                ∃ tr0, new_events s
                         (snd (extract_gh_repo_issues W (org args)
                                 (repos args) (gh_token args)
                                 "./hf_repo_issues" s)) = tr0 ∧
                       count is_save tr0 = 0%nat) as Hmain.
  { rewrite main_unfold.
    destruct (repos args) as [repos0|] eqn:Hrepos.
    - rewrite extract_unfold.
      destruct (Hloop repos0 (set_all_issues [] s)) as (tr & T & S0 & L0).
      destruct (for_each _ repos0 _) as [[[]|e] s1]; simpl in *.
      + exists (tr ++ [EPushToHub (all_issues s1) (hf_repo args) (hf_token args)]).
        rewrite T, app_assoc, !count_app, S0, L0.
        repeat split; auto.
        exists tr. split; [apply new_events_app; exact T | exact S0].
      + exists tr. repeat split; auto.
        exists tr. split; [apply new_events_app; exact T | exact S0].
    - unfold extract_gh_repo_issues, new_all_issues, iterate. run.
      exists []. rewrite app_nil_r. repeat split; auto.
      exists []. split; [|reflexivity].
      unfold new_events. simpl. apply drop_all. }
  destruct Hmain as (tr & T & S0 & L0 & D & tr0 & E0 & S00).
  intros s'. subst s'. rewrite (new_events_app _ _ _ T).
  split; [exact S0|]. split; [exact L0|].
  rewrite D.
  destruct (extract_trace_and_disk W (org args) (repos args) (gh_token args)
              "./hf_repo_issues" s) as (_ & _ & _ & D').
  cbv zeta in D'. rewrite D', E0. apply replay_no_saves. exact S00.
Qed.

Lemma no_snapshot_without_throttled_comments_witness :
  let W := scripted [throttled_listing] 1000 880 in
  let args := {| org := Some "acme"; repos := Some ["widgets"];
                 gh_token := Some "token"; hf_token := None;
                 hf_repo := None; ds_path := None |} in
  fst (main W args initial_store) = Raise RateLimitExceededException ∧
  disk (snd (main W args initial_store)) = disk initial_store ∧
  count is_sleep (new_events initial_store (snd (main W args initial_store)))
  = 0%nat.
Proof.
  intros W args.
  assert (comments_never_throttled W) as Hn.
  { intros k name issue Hin.
    destruct k as [|[|k]]; simpl in Hin;
      repeat (apply elem_of_cons in Hin as [-> | Hin]; [reflexivity|]);
      inversion Hin. }
  destruct (no_snapshot_without_throttled_comments W args initial_store Hn)
    as (_ & L & D).
  split; [reflexivity|]. split; [exact D | exact L].
Defined.

(** ** The comments of the records (C6) *)

Lemma join_concat (sep : string) (l : list string) :
  join sep l = String.concat sep l.
Proof.
  induction l as [|x l IH]; [reflexivity|].
  destruct l as [|y l]; [reflexivity|].
  change (x +:+ sep +:+ join sep (y :: l)
          = x +:+ sep +:+ String.concat sep (y :: l)).
  rewrite IH. reflexivity.
Qed.

Lemma record_of_fetched repo_name issue bodies :
  Issue.get_comments issue = CommentsOk bodies →
  record_of repo_name issue
  = make_issue_data repo_name issue (String.concat "<|||||>" bodies).
Proof.
  intros H. unfold record_of. rewrite H, join_concat. reflexivity.
Qed.

Lemma kept_records_from_the_world W gh_org repos :
  ∀ k d,
    In d (kept_records W gh_org k repos) →
    ∃ j name issue bodies,
      repos !! j = Some name ∧
      In issue (issues_of (get_repo W (k + j) (full_name gh_org name))) ∧
      Issue.get_comments issue = CommentsOk bodies ∧
      d = make_issue_data name issue (String.concat "<|||||>" bodies).
Proof.
  induction repos as [|name rest IH]; intros k d Hd; [destruct Hd|].
  simpl in Hd. apply in_app_or in Hd as [Hd | Hd].
  - apply in_map_iff in Hd as (issue & <- & Hin).
    apply filter_In in Hin as [Hin Hc]. unfold has_comments in Hc.
    destruct (Issue.get_comments issue) as [bodies|] eqn:E; [|discriminate].
    exists 0%nat, name, issue, bodies. rewrite Nat.add_0_r.
    split; [reflexivity|]. split; [exact Hin|]. split; [exact E|].
    apply record_of_fetched. exact E.
  - destruct (IH (S k) d Hd) as (j & name' & issue & bodies & Hj & Hin & E & ->).
    exists (S j), name', issue, bodies. rewrite Nat.add_succ_r.
    repeat split; assumption.
Qed.

(** C6: an issue whose comments are fetched gets a record whose [comments]
    field is the comment bodies joined with [<|||||>] (the bodies, one
    delimiter between each two, nothing around), appended to the
    collection: the bodies "a" and "b" give "a<|||||>b" and no comment
    gives the empty string; and every record of a returned collection is the
    record of an issue that one of the listed repositories yielded, with the
    joined bodies of that issue as its [comments]. *)
Theorem comments_are_joined W repo_name path n i issue bodies s :
  Issue.get_comments issue = CommentsOk bodies →
  (∃ d s',
     process_issue W repo_name path n i issue s = (Return tt, s') ∧
     all_issues s' = all_issues s ++ [d] ∧
     d = make_issue_data repo_name issue (String.concat "<|||||>" bodies) ∧
     IssueData.comments d = String.concat "<|||||>" bodies ∧
     (bodies = ["a"; "b"] → IssueData.comments d = "a<|||||>b") ∧
     (bodies = [] → IssueData.comments d = "")) ∧
  (∀ gh_org repos token ds s',
     extract_gh_repo_issues W gh_org (Some repos) token path s
     = (Return ds, s') →
     Forall (λ d, ∃ j name issue' bodies',
                    repos !! j = Some name ∧
                    In issue' (issues_of (get_repo W (repo_calls s + j)
                                            (full_name gh_org name))) ∧
                    Issue.get_comments issue' = CommentsOk bodies' ∧
                    d = make_issue_data name issue'
                          (String.concat "<|||||>" bodies') ∧
                    IssueData.comments d = String.concat "<|||||>" bodies')
       ds).
Proof.
  intros H. split.
  - exists (record_of repo_name issue), (collected repo_name issue s).
    split; [apply (process_issue_ok _ _ _ _ _ _ _ _ H)|].
    split; [reflexivity|].
    rewrite (record_of_fetched _ _ _ H).
    split; [reflexivity|]. split; [reflexivity|].
    split; intros ->; reflexivity.
  - intros gh_org repos token ds s' Hr. rewrite extract_unfold in Hr.
    destruct (for_each _ repos _) as [[[]|e] s1] eqn:E; [|discriminate Hr].
    injection Hr as <- <-.
    destruct (for_each_repo_returned _ _ _ _ _ _ _ E) as (tr & _ & A & _).
    simpl in A. rewrite A.
    apply List.Forall_forall. intros d Hd.
    destruct (kept_records_from_the_world W gh_org repos _ d Hd)
      as (j & name & issue' & bodies' & Hj & Hin & Hc & ->).
    exists j, name, issue', bodies'. repeat split; assumption.
Qed.

Lemma comments_are_joined_witness :
  (∃ d s',
     process_issue (scripted [] 0 0) "widgets" "ckpt" 1 0
       (an_issue 1 open None (CommentsOk ["a"; "b"; "c"])) initial_store
     = (Return tt, s') ∧
     all_issues s' = all_issues initial_store ++ [d] ∧
     IssueData.comments d = "a<|||||>b<|||||>c") ∧
  (∃ d s',
     process_issue (scripted [] 0 0) "widgets" "ckpt" 1 0
       (an_issue 2 open None (CommentsOk ["only"])) initial_store
     = (Return tt, s') ∧
     IssueData.comments d = "only" ∧ all_issues s' = [d]) ∧
  (∃ ds s',
     extract_gh_repo_issues (scripted [two_issues; one_issue] 0 0)
       (Some "acme") (Some ["widgets"; "gadgets"]) (Some "token") "ckpt"
       initial_store = (Return ds, s') ∧
     map IssueData.comments ds = ["a<|||||>b"; ""; "x<|||||>y<|||||>z"] ∧
     Forall (λ d, ∃ j name issue' bodies',
                    ["widgets"; "gadgets"] !! j = Some name ∧
                    In issue'
                      (issues_of
                         (get_repo (scripted [two_issues; one_issue] 0 0)
                            (repo_calls initial_store + j)
                            (full_name (Some "acme") name))) ∧
                    Issue.get_comments issue' = CommentsOk bodies' ∧
                    d = make_issue_data name issue'
                          (String.concat "<|||||>" bodies') ∧
                    IssueData.comments d = String.concat "<|||||>" bodies')
       ds).
Proof.
  split; [|split].
  - destruct (comments_are_joined (scripted [] 0 0) "widgets" "ckpt" 1 0
                (an_issue 1 open None (CommentsOk ["a"; "b"; "c"]))
                ["a"; "b"; "c"] initial_store eq_refl)
      as [(d & s' & E & A & _ & C & _) _].
    exists d, s'. split; [exact E|]. split; [exact A | exact C].
  - destruct (comments_are_joined (scripted [] 0 0) "widgets" "ckpt" 1 0
                (an_issue 2 open None (CommentsOk ["only"]))
                ["only"] initial_store eq_refl)
      as [(d & s' & E & A & _ & C & _) _].
    exists d, s'. split; [exact E|]. split; [exact C | exact A].
  - destruct (comments_are_joined (scripted [two_issues; one_issue] 0 0)
                "widgets" "ckpt" 1 0
                (an_issue 1 open None (CommentsOk [])) [] initial_store
                eq_refl) as [_ H].
    eexists. eexists. split; [vm_compute; reflexivity|].
    split; [reflexivity|].
    eapply (H (Some "acme") ["widgets"; "gadgets"] (Some "token")).
    vm_compute. reflexivity.
Defined.
